(** * AdjVectorBQM: the adjacency-vector binary quadratic model

    A shallow embedding of [dimod/include/dimod/adjvectorbqm.h].  The class
    template [AdjVectorBQM<V, B>] keeps one public member,

      [std::vector<std::pair<std::vector<std::pair<V, B>>, B>> adj;]

    which is embedded as a list of records [(neighborhood, linear bias)], a
    neighborhood being a list of [(neighbor index, quadratic bias)] pairs.

    - The variable type [V] is an index into [adj]; it is embedded as [nat].
    - The bias type [B] stays abstract: a type with the value [B(0)], the
      operator [+] and the operator [!=], exactly what the class uses.
    - A member function whose contract is broken (a failed [assert], an
      index outside a vector, [erase] at [end()]) has no defined result; it
      returns [None].  The assertions of [neighborhood] and [set_linear]
      name a member [invars] that the class does not declare; they are read
      as bounds on [adj], like every other assertion of the class. *)

From stdpp Require Import base decidable option numbers list sorting.

Set Default Proof Using "Type".

(* ================================================================= *)
(** ** The container and its member functions *)

Section AdjVectorBQM.
(** [bias_type], with [B(0)], [operator+] and [operator!=]. *)
Context {B : Type} (bzero : B) (badd : B → B → B) (bne : B → B → bool).

(** [variable_type] and [size_type]. *)
Local Abbreviation V := nat (only parsing).
(** [std::vector<std::pair<V, B>>]: one neighborhood. *)
Local Abbreviation outvars := (list (nat * B)) (only parsing).
(** The type of the member [adj]. *)
Local Abbreviation bqm := (list (list (nat * B) * B)) (only parsing).

(** Modelled from the spec: [utils::comp_v<V, B>] is declared in
    [dimod/utils.h], which is not part of the sources at hand.  The spec
    describes it as "a comparator ordering strictly by neighbor index,
    ignoring bias". *)
Definition comp_v (ub : nat * B) (v : V) : bool := bool_decide (ub.1 < v).

(** [std::lower_bound(first, last, v, comp_v)] as the standard library
    writes it: a binary search over the range [[first, first + count)],
    halving [count] until it is zero.  Iterators are positions in the
    list; [fuel] bounds the number of iterations and is started at
    [count], which halves at every turn. *)
Fixpoint lower_bound_loop (fuel : nat) (l : outvars) (first count : nat)
    (v : V) : nat :=
  match fuel with
  | O => first
  | S fuel' =>
      if decide (count = 0) then first
      else
        let step := count / 2 in
        let it := first + step in
        match l !! it with
        | Some e =>
            if comp_v e v
            then lower_bound_loop fuel' l (S it) (count - (step + 1)) v
            else lower_bound_loop fuel' l first step v
        | None => first
        end
  end.

Definition lower_bound (l : outvars) (v : V) : nat :=
  lower_bound_loop (length l) l 0 (length l) v.

(** [!(low == span.second || low->first != v)] *)
Definition found_at (l : outvars) (low : nat) (v : V) : bool :=
  match l !! low with
  | None => false
  | Some e => bool_decide (e.1 = v)
  end.

(** [vec.emplace(pos, v, b)]: insert before position [pos]. *)
Definition emplace (pos : nat) (e : nat * B) (l : outvars) : outvars :=
  take pos l ++ e :: drop pos l.

(** [vec.erase(pos)]; erasing at [end()] is undefined. *)
Definition erase (pos : nat) (l : outvars) : option outvars :=
  if decide (pos < length l) then Some (delete pos l) else None.

(** [pos->second = b] *)
Definition assign_second (pos : nat) (b : B) (l : outvars) : outvars :=
  alter (λ e, (e.1, b)) pos l.

(** [AdjVectorBQM()] *)
Definition AdjVectorBQM_default : bqm := [].

(** [add_variable]: [adj.resize(adj.size()+1); return adj.size()-1;] *)
Definition add_variable (adj : bqm) : bqm * V :=
  let adj' := resize (length adj + 1) ([], bzero) adj in
  (adj', length adj' - 1).

(** [degree(v)]: [adj[v].first.size()] *)
Definition degree (adj : bqm) (v : V) : option nat :=
  r ← adj !! v; Some (length r.1).

(** [get_linear(v)]: [adj[v].second] *)
Definition get_linear (adj : bqm) (v : V) : option B :=
  r ← adj !! v; Some r.2.

(** [neighborhood(u)]: the span [[begin, end)] of [adj[u].first], as the
    sequence it ranges over. *)
Definition neighborhood (adj : bqm) (u : V) : option outvars :=
  if decide (u < length adj) then r ← adj !! u; Some r.1 else None.

(** [get_quadratic(u, v)] *)
Definition get_quadratic (adj : bqm) (u v : V) : option (B * bool) :=
  if decide (u < length adj ∧ v < length adj ∧ u ≠ v) then
    span ← neighborhood adj u;
    let low := lower_bound span v in
    match span !! low with
    | None => Some (bzero, false)
    | Some e => if decide (e.1 ≠ v) then Some (bzero, false)
                else Some (e.2, true)
    end
  else None.

(** [num_variables()] *)
Definition num_variables (adj : bqm) : nat := length adj.

(** The loop of [num_interactions]: [count += it->first.size()]. *)
Fixpoint count_entries (adj : bqm) (count : nat) : nat :=
  match adj with
  | [] => count
  | it :: rest => count_entries rest (count + length it.1)
  end.

(** [num_interactions()] *)
Definition num_interactions (adj : bqm) : nat := count_entries adj 0 / 2.

(** The loop of [pop_variable] over the entries [its] of [adj[v].first]
    that are still to be visited.  An entry that names [v] itself would
    erase from the vector under traversal and invalidate [it]. *)
Fixpoint pop_loop (v : V) (its : outvars) (adj : bqm) : option bqm :=
  match its with
  | [] => Some adj
  | it :: its' =>
      if decide (it.1 = v) then None
      else
        r ← adj !! it.1;
        let low := lower_bound r.1 v in
        nb ← erase low r.1;
        pop_loop v its' (<[it.1 := (nb, r.2)]> adj)
  end.

(** [pop_variable()] *)
Definition pop_variable (adj : bqm) : option (bqm * V) :=
  if decide (0 < length adj) then
    let v := length adj - 1 in
    r ← adj !! v;
    adj1 ← pop_loop v r.1 adj;
    let adj2 := take (length adj1 - 1) adj1 in
    Some (adj2, length adj2)
  else None.

(** [remove_interaction(u, v)].  [span] is the row [adj[u].first]: the
    record [ru] is [adj[u]], searched and erased from in place.  The
    function does not assert [u != v]. *)
Definition remove_interaction (adj : bqm) (u v : V) : option (bqm * bool) :=
  if decide (u < length adj ∧ v < length adj) then
    ru ← adj !! u;
    let low := lower_bound ru.1 v in
    let exists_ := found_at ru.1 low v in
    if exists_ then
      nu ← erase low ru.1;
      let adj1 := <[u := (nu, ru.2)]> adj in
      rv ← adj1 !! v;
      let low' := lower_bound rv.1 u in
      if decide (found_at rv.1 low' u = exists_) then
        nv ← erase low' rv.1;
        Some (<[v := (nv, rv.2)]> adj1, exists_)
      else None
    else Some (adj, exists_)
  else None.

(** [set_linear(v, b)] *)
Definition set_linear (adj : bqm) (v : V) (b : B) : option bqm :=
  if decide (v < length adj) then
    r ← adj !! v; Some (<[v := (r.1, b)]> adj)
  else None.

(** [set_quadratic(u, v, b)].  As in [remove_interaction], [ru] and [rv]
    are the records [adj[u]] and [adj[v]] whose neighborhoods the two
    spans range over; [rv] is read after the first update. *)
Definition set_quadratic (adj : bqm) (u v : V) (b : B)
    : option (bqm * bool) :=
  if decide (u < length adj ∧ v < length adj ∧ u ≠ v) then
    ru ← adj !! u;
    let low := lower_bound ru.1 v in
    let exists_ := found_at ru.1 low v in
    let adj1 :=
      if exists_ then <[u := (assign_second low b ru.1, ru.2)]> adj
      else <[u := (emplace low (v, b) ru.1, ru.2)]> adj in
    rv ← adj1 !! v;
    let low' := lower_bound rv.1 u in
    if decide (found_at rv.1 low' u = exists_) then
      let adj2 :=
        if exists_ then <[v := (assign_second low' b rv.1, rv.2)]> adj1
        else <[v := (emplace low' (u, b) rv.1, rv.2)]> adj1 in
      Some (adj2, true)
    else None
  else None.

(** A counted [for] loop whose body may break the contract. *)
Fixpoint for_each (idxs : list nat) (body : nat → bqm → option bqm)
    (adj : bqm) : option bqm :=
  match idxs with
  | [] => Some adj
  | i :: rest => adj1 ← body i adj; for_each rest body adj1
  end.

(** [adj[u].first.emplace_back(v, b)] *)
Definition emplace_back (adj : bqm) (u : V) (e : nat * B) : option bqm :=
  r ← adj !! u; Some (<[u := (r.1 ++ [e], r.2)]> adj).

(** The dense constructor, [AdjVectorBQM(dense, num_variables,
    ignore_diagonal)], with [B2 = B].  [dense] is the array the pointer
    refers to; reading past its end is undefined. *)
Definition dense_diagonal (dense : list B) (n : nat) (v : nat) (adj : bqm)
    : option bqm :=
  d ← dense !! (v * (n + 1));
  r ← adj !! v; Some (<[v := (r.1, d)]> adj).

Definition dense_pair (dense : list B) (n : nat) (u v : nat) (adj : bqm)
    : option bqm :=
  a ← dense !! (u * n + v);
  b ← dense !! (v * n + u);
  let qbias := badd a b in
  if bne qbias bzero then
    adj1 ← emplace_back adj u (v, qbias);
    emplace_back adj1 v (u, qbias)
  else Some adj.

Definition dense_row (dense : list B) (n : nat) (u : nat) (adj : bqm)
    : option bqm :=
  for_each (seq (u + 1) (n - (u + 1))) (dense_pair dense n u) adj.

Definition AdjVectorBQM_dense (dense : list B) (n : nat)
    (ignore_diagonal : bool) : option bqm :=
  let adj0 := resize n ([], bzero) [] in
  adj1 ← (if negb ignore_diagonal
          then for_each (seq 0 n) (dense_diagonal dense n) adj0
          else Some adj0);
  for_each (seq 0 n) (dense_row dense n) adj1.

(** The read contract the copying constructor asks of its argument:
    [num_variables()], [get_linear(v)] and [neighborhood(v)]. *)
Record bqm_source := {
  src_num_variables : nat;
  src_get_linear : V → option B;
  src_neighborhood : V → option outvars;
}.

(** An [AdjVectorBQM] seen through that contract. *)
Definition as_source (adj : bqm) : bqm_source := {|
  src_num_variables := num_variables adj;
  src_get_linear := get_linear adj;
  src_neighborhood := neighborhood adj;
|}.

Definition copy_variable (src : bqm_source) (v : nat) (adj : bqm)
    : option bqm :=
  l ← src_get_linear src v;
  adj1 ← set_linear adj v l;
  span ← src_neighborhood src v;
  r ← adj1 !! v;
  Some (<[v := (span ++ r.1, r.2)]> adj1).

(** [AdjVectorBQM(const BQM &bqm)] *)
Definition AdjVectorBQM_copy (src : bqm_source) : option bqm :=
  let adj0 := resize (src_num_variables src) ([], bzero) [] in
  for_each (seq 0 (src_num_variables src)) (copy_variable src) adj0.


(* =============================================================== *)
(** ** The invariants of the data model *)

(** The order the neighborhoods are kept in: by neighbor index. *)
Definition key_lt (x y : nat * B) : Prop := x.1 < y.1.

(** Strictly increasing by neighbor index. *)
Definition nb_sorted (l : outvars) : Prop := StronglySorted key_lt l.

(** The neighborhood of [u] holds the entry [(w, c)]. *)
Definition stored (adj : bqm) (u w : V) (c : B) : Prop :=
  ∃ r, adj !! u = Some r ∧ (w, c) ∈ r.1.

Definition rows_sorted (adj : bqm) : Prop :=
  ∀ u r, adj !! u = Some r → nb_sorted r.1.

Definition no_self_loops (adj : bqm) : Prop :=
  ∀ u c, ¬ stored adj u u c.

Definition symmetric (adj : bqm) : Prop :=
  ∀ u w c, stored adj u w c → stored adj w u c.

(** The ordered pair [(x, y)] is one of the two copies of edge
    [{u, v}]. *)
Definition same_edge (u v x y : V) : Prop :=
  (x = u ∧ y = v) ∨ (x = v ∧ y = u).

(** A valid state: invariants 1 to 3 of the data model.  Index density
    (invariant 4) is the list itself; that every stored neighbor is a
    variable of the model follows from symmetry. *)
Record valid (adj : bqm) : Prop := {
  valid_sorted : rows_sorted adj;
  valid_no_self_loops : no_self_loops adj;
  valid_symmetric : symmetric adj;
}.

(** The bias the dense constructor computes for the pair [{x, y}]: the
    entry above the diagonal plus the entry below it, in this order. *)
Definition dense_bias (dense : list B) (n : nat) (x y : nat) : option B :=
  a ← dense !! (x `min` y * n + x `max` y);
  b ← dense !! (x `max` y * n + x `min` y);
  Some (badd a b).

(** The state of the dense constructor once it has visited the pairs
    [p < q] with [p < u], or with [p = u] and [q < v]. *)
Definition dense_inv (dense : list B) (n : nat) (lin : list B)
    (u v : nat) (a : bqm) : Prop :=
  length a = n ∧ a.*2 = lin ∧ rows_sorted a ∧
  ∀ x y c, stored a x y c ↔
    x < n ∧ y < n ∧ x ≠ y ∧
    (x `min` y < u ∨ (x `min` y = u ∧ x `max` y < v)) ∧
    dense_bias dense n x y = Some c ∧ bne c bzero = true.

(** The states a program can bring an [AdjVectorBQM] into: a constructor
    followed by calls of the mutating member functions, each within its
    contract.  The copying constructor is taken at the one class of the
    sources that offers its read contract, [AdjVectorBQM] itself.  The
    queries ([degree], [get_linear], [get_quadratic], [num_variables],
    [num_interactions]) are [const] and leave the state as it is. *)
Inductive reachable : bqm → Prop :=
| reach_default : reachable AdjVectorBQM_default
| reach_copy s s' :
    reachable s → AdjVectorBQM_copy (as_source s) = Some s' → reachable s'
| reach_dense dense n ignore_diagonal s :
    AdjVectorBQM_dense dense n ignore_diagonal = Some s → reachable s
| reach_add_variable s :
    reachable s → reachable (add_variable s).1
| reach_pop_variable s s' r :
    reachable s → pop_variable s = Some (s', r) → reachable s'
| reach_remove_interaction s u v s' r :
    reachable s → remove_interaction s u v = Some (s', r) → reachable s'
| reach_set_linear s v b s' :
    reachable s → set_linear s v b = Some s' → reachable s'
| reach_set_quadratic s u v b s' r :
    reachable s → set_quadratic s u v b = Some (s', r) → reachable s'.

(** The sum of [degree(v)] over all variables. *)
Definition total_degree (adj : bqm) : nat :=
  sum_list_with (λ v, default 0 (degree adj v)) (seq 0 (num_variables adj)).

(* =============================================================== *)
(** ** Sorted neighborhoods and the binary search *)

(** Propositional steps, taken without the parameters of the section
    that the goal does not mention. *)
Ltac ptauto := try clear badd; try clear bne; try clear bzero; tauto.

Lemma nb_sorted_lookup_lt (l : outvars) i j x y :
  nb_sorted l → l !! i = Some x → l !! j = Some y → i < j → x.1 < y.1.
Proof.
  intros Hs. revert i j. induction Hs as [|a l Hs IH Hall]; intros i j Hi Hj Hij.
  - by rewrite lookup_nil in Hi.
  - destruct j as [|j]; [lia|]. simpl in Hj.
    destruct i as [|i]; simpl in Hi.
    + inversion Hi; subst.
      rewrite Forall_forall in Hall.
      apply (Hall y). eapply list_elem_of_lookup_2; eauto.
    + eapply IH; eauto. lia.
Qed.

Lemma lower_bound_loop_spec fuel : ∀ (l : outvars) first count v,
  nb_sorted l → count ≤ fuel → first + count ≤ length l →
  (∀ i e, l !! i = Some e → i < first → e.1 < v) →
  (∀ i e, l !! i = Some e → first + count ≤ i → v ≤ e.1) →
  let r := lower_bound_loop fuel l first count v in
  r ≤ length l ∧
  (∀ i e, l !! i = Some e → i < r → e.1 < v) ∧
  (∀ i e, l !! i = Some e → r ≤ i → v ≤ e.1).
Proof.
  induction fuel as [|fuel IH]; intros l first count v Hs Hf Hlen Hlo Hhi;
    cbn [lower_bound_loop].
  - assert (count = 0) by lia. subst. rewrite Nat.add_0_r in Hhi.
    split; [lia|]. split; eauto.
  - destruct (decide (count = 0)) as [->|Hc].
    { rewrite Nat.add_0_r in Hhi. split; [lia|]. split; eauto. }
    assert (Hstep : count / 2 < count) by (apply Nat.div_lt; lia).
    destruct (l !! (first + count / 2)) as [e|] eqn:He.
    2:{ apply lookup_ge_None in He. lia. }
    unfold comp_v. case_bool_decide as Hcmp.
    + apply IH; try done; try lia.
      intros i x Hx Hi.
      destruct (decide (i = first + count / 2)) as [->|Hne].
      * congruence.
      * assert (x.1 < e.1); [|lia].
        eapply (nb_sorted_lookup_lt l i (first + count / 2)); eauto. lia.
      * intros i x Hx Hi. apply (Hhi i x Hx). lia.
    + apply IH; try done; try lia.
      intros i x Hx Hi.
      destruct (decide (i = first + count / 2)) as [->|Hne].
      * assert (x = e) by congruence. subst. lia.
      * assert (e.1 < x.1); [|lia].
        eapply (nb_sorted_lookup_lt l (first + count / 2) i); eauto. lia.
Qed.

(** On a sorted neighborhood the search returns the partition point:
    every entry before it has a smaller index, every entry from it on
    has an index that is not smaller. *)
Lemma lower_bound_spec (l : outvars) v :
  nb_sorted l →
  lower_bound l v ≤ length l ∧
  (∀ i e, l !! i = Some e → i < lower_bound l v → e.1 < v) ∧
  (∀ i e, l !! i = Some e → lower_bound l v ≤ i → v ≤ e.1).
Proof.
  intros Hs. unfold lower_bound.
  apply lower_bound_loop_spec; try done.
  - intros; lia.
  - intros i e He Hi. apply lookup_lt_Some in He. simpl in Hi. lia.
Qed.

Lemma lower_bound_split (l : outvars) v :
  nb_sorted l →
  ∃ l1 l2, l = l1 ++ l2 ∧ lower_bound l v = length l1 ∧
    Forall (λ x, x.1 < v) l1 ∧ Forall (λ x, v ≤ x.1) l2.
Proof.
  intros Hs. destruct (lower_bound_spec l v Hs) as (Hle & Hlo & Hhi).
  exists (take (lower_bound l v) l), (drop (lower_bound l v) l).
  split; [by rewrite take_drop|]. split; [by rewrite length_take_le|].
  split; apply Forall_lookup; intros i x Hx.
  - apply lookup_take_Some in Hx as [Hx Hi]. eauto.
  - rewrite lookup_drop in Hx. apply (Hhi _ _ Hx). lia.
Qed.

Lemma nb_sorted_middle (l1 l2 : outvars) e :
  nb_sorted (l1 ++ e :: l2) ↔
  nb_sorted l1 ∧ nb_sorted l2 ∧
  Forall (λ x, x.1 < e.1) l1 ∧ Forall (λ x, e.1 < x.1) l2.
Proof.
  unfold nb_sorted.
  rewrite StronglySorted_app, StronglySorted_cons, !Forall_forall.
  unfold key_lt. split.
  - intros (H12 & H1 & H2 & H3). repeat split; try done.
    intros x Hx. apply H12; [done|]. apply elem_of_cons; by left.
  - intros (H1 & H2 & H3 & H4). repeat split; try done.
    intros x1 x2 Hx1 [->|Hx2]%elem_of_cons; [by apply H3|].
    specialize (H3 _ Hx1). specialize (H4 _ Hx2). lia.
Qed.

Lemma nb_sorted_app (l1 l2 : outvars) :
  nb_sorted (l1 ++ l2) → nb_sorted l1 ∧ nb_sorted l2.
Proof. unfold nb_sorted. rewrite StronglySorted_app. ptauto. Qed.

Lemma nb_sorted_join (l1 l2 : outvars) v :
  nb_sorted l1 → nb_sorted l2 →
  Forall (λ x, x.1 < v) l1 → Forall (λ x, v < x.1) l2 →
  nb_sorted (l1 ++ l2).
Proof.
  intros H1 H2 Hlo Hhi. apply StronglySorted_app. repeat split; try done.
  rewrite Forall_forall in Hlo, Hhi. intros x1 x2 Hx1 Hx2.
  specialize (Hlo _ Hx1). specialize (Hhi _ Hx2). unfold key_lt. lia.
Qed.

(** The two outcomes of a search for [v] in a sorted neighborhood: [v] is
    absent and the position is where it belongs, or the position holds
    the entry of [v]. *)
Lemma search_cases (l : outvars) v :
  nb_sorted l →
  ∃ l1 l2, lower_bound l v = length l1 ∧
    nb_sorted l1 ∧ nb_sorted l2 ∧
    Forall (λ x, x.1 < v) l1 ∧ Forall (λ x, v < x.1) l2 ∧
    ((l = l1 ++ l2 ∧ found_at l (length l1) v = false) ∨
     (∃ c, l = l1 ++ (v, c) :: l2 ∧ found_at l (length l1) v = true)).
Proof.
  intros Hs. destruct (lower_bound_split l v Hs) as (l1 & l2 & -> & Hlow & Hlo & Hhi).
  destruct l2 as [|[w c] l2].
  - exists l1, []. rewrite app_nil_r in *.
    split_and!; [done|done|constructor|done|done|].
    left. split; [done|]. unfold found_at.
    by rewrite lookup_ge_None_2.
  - pose proof Hs as Hs'. apply nb_sorted_middle in Hs' as (H1 & H2 & H3 & H4).
    simpl in *. apply Forall_cons in Hhi as [Hw Hhi].
    destruct (decide (w = v)) as [->|Hne].
    + exists l1, l2. split_and!; [done..|].
      right. exists c. split; [done|]. unfold found_at.
      rewrite list_lookup_middle by done. simpl. by rewrite bool_decide_eq_true.
    + exists l1, ((w, c) :: l2).
      split_and!; [done|done|by apply nb_sorted_app in Hs as [_ ?]|done| |].
      { simpl in Hw. constructor; [simpl; lia|].
        eapply Forall_impl; [exact H4|]. simpl. intros; lia. }
      left. split; [done|]. unfold found_at.
      rewrite list_lookup_middle by done. simpl. by rewrite bool_decide_eq_false.
Qed.

Lemma emplace_middle (l1 l2 : outvars) e :
  emplace (length l1) e (l1 ++ l2) = l1 ++ e :: l2.
Proof. unfold emplace. by rewrite take_app_length, drop_app_length. Qed.

Lemma erase_middle (l1 l2 : outvars) e :
  erase (length l1) (l1 ++ e :: l2) = Some (l1 ++ l2).
Proof.
  unfold erase. rewrite delete_middle.
  rewrite decide_True; [done|]. rewrite length_app. simpl. lia.
Qed.

Lemma assign_second_middle (l1 l2 : outvars) e b :
  assign_second (length l1) b (l1 ++ e :: l2) = l1 ++ (e.1, b) :: l2.
Proof.
  unfold assign_second.
  replace (length l1) with (length l1 + 0) at 1 by lia.
  by rewrite alter_app_r.
Qed.

(** A sorted neighborhood holds at most one entry per neighbor. *)
Lemma nb_sorted_functional (l : outvars) v c c' :
  nb_sorted l → (v, c) ∈ l → (v, c') ∈ l → c = c'.
Proof.
  intros Hs [i Hi]%list_elem_of_lookup [j Hj]%list_elem_of_lookup.
  destruct (Nat.lt_trichotomy i j) as [Hij|[->|Hij]].
  - pose proof (nb_sorted_lookup_lt _ _ _ _ _ Hs Hi Hj Hij). simpl in *; lia.
  - congruence.
  - pose proof (nb_sorted_lookup_lt _ _ _ _ _ Hs Hj Hi Hij). simpl in *; lia.
Qed.

Lemma absent_not_elem (l1 l2 : outvars) v e :
  Forall (λ x, x.1 < v) l1 → Forall (λ x, v < x.1) l2 →
  e ∈ l1 ++ l2 → e.1 ≠ v.
Proof.
  rewrite !Forall_forall. intros Hlo Hhi [Hin|Hin]%elem_of_app.
  - specialize (Hlo _ Hin). simpl in Hlo. lia.
  - specialize (Hhi _ Hin). simpl in Hhi. lia.
Qed.

(** The search finds [v] exactly when the neighborhood has an entry of
    [v]. *)
Lemma found_at_iff (l : outvars) v :
  nb_sorted l →
  found_at l (lower_bound l v) v = true ↔ ∃ c, (v, c) ∈ l.
Proof.
  intros Hs.
  destruct (search_cases l v Hs)
    as (l1 & l2 & -> & _ & _ & Hlo & Hhi & [[Hl Hf]|[c [Hl Hf]]]);
    rewrite Hf.
  - split; [done|]. intros [c Hc]. subst l.
    by apply (absent_not_elem _ _ _ _ Hlo Hhi) in Hc.
  - split; [|done]. intros _. exists c. subst l.
    apply elem_of_app. right. apply elem_of_cons. by left.
Qed.

Lemma found_at_lookup (l : outvars) v c :
  nb_sorted l →
  (v, c) ∈ l ↔ l !! lower_bound l v = Some (v, c).
Proof.
  intros Hs. split; [|apply list_elem_of_lookup_2].
  destruct (search_cases l v Hs)
    as (l1 & l2 & -> & _ & _ & Hlo & Hhi & [[Hl Hf]|[c' [Hl Hf]]]);
    subst l; intros Hc.
  - by apply (absent_not_elem _ _ _ _ Hlo Hhi) in Hc.
  - rewrite list_lookup_middle by done.
    assert ((v, c') ∈ l1 ++ (v, c') :: l2) as Hc'.
    { apply elem_of_app. right. apply elem_of_cons. by left. }
    by rewrite (nb_sorted_functional _ _ _ _ Hs Hc Hc').
Qed.

Lemma emplace_spec (l : outvars) v b :
  nb_sorted l → found_at l (lower_bound l v) v = false →
  nb_sorted (emplace (lower_bound l v) (v, b) l) ∧
  length (emplace (lower_bound l v) (v, b) l) = S (length l) ∧
  ∀ e, e ∈ emplace (lower_bound l v) (v, b) l ↔
       e = (v, b) ∨ (e.1 ≠ v ∧ e ∈ l).
Proof.
  intros Hs Hf.
  destruct (search_cases l v Hs)
    as (l1 & l2 & Hlow & H1 & H2 & Hlo & Hhi & [[Hl Hf']|[c' [Hl Hf']]]);
    rewrite Hlow in *; [|by rewrite Hf in Hf'].
  subst l. rewrite emplace_middle. split_and!.
  - by apply nb_sorted_middle.
  - rewrite !length_app. simpl. lia.
  - intros e. rewrite !elem_of_app, elem_of_cons. split.
    + intros [He|[->|He]]; [right|by left|right]; (split; [|ptauto]);
        eapply absent_not_elem; eauto; apply elem_of_app; ptauto.
    + intros [->|[_ ?]]; ptauto.
Qed.

Lemma assign_second_spec (l : outvars) v b :
  nb_sorted l → found_at l (lower_bound l v) v = true →
  nb_sorted (assign_second (lower_bound l v) b l) ∧
  length (assign_second (lower_bound l v) b l) = length l ∧
  ∀ e, e ∈ assign_second (lower_bound l v) b l ↔
       e = (v, b) ∨ (e.1 ≠ v ∧ e ∈ l).
Proof.
  intros Hs Hf.
  destruct (search_cases l v Hs)
    as (l1 & l2 & Hlow & H1 & H2 & Hlo & Hhi & [[Hl Hf']|[c' [Hl Hf']]]);
    rewrite Hlow in *; [by rewrite Hf in Hf'|].
  subst l. rewrite assign_second_middle. simpl. split_and!.
  - by apply nb_sorted_middle.
  - rewrite !length_app. done.
  - intros e. rewrite !elem_of_app, !elem_of_cons. split.
    + intros [He|[->|He]]; [right|by left|right]; (split; [|ptauto]);
        eapply absent_not_elem; eauto; apply elem_of_app; ptauto.
    + intros [->|[Hne [?|[->|?]]]]; ptauto.
Qed.

Lemma erase_spec (l : outvars) v :
  nb_sorted l → found_at l (lower_bound l v) v = true →
  ∃ l', erase (lower_bound l v) l = Some l' ∧
    nb_sorted l' ∧ S (length l') = length l ∧
    ∀ e, e ∈ l' ↔ e.1 ≠ v ∧ e ∈ l.
Proof.
  intros Hs Hf.
  destruct (search_cases l v Hs)
    as (l1 & l2 & Hlow & H1 & H2 & Hlo & Hhi & [[Hl Hf']|[c' [Hl Hf']]]);
    rewrite Hlow in *; [by rewrite Hf in Hf'|].
  subst l. rewrite erase_middle. eexists. split; [done|]. split_and!.
  - by eapply nb_sorted_join.
  - rewrite !length_app. simpl. lia.
  - intros e. rewrite !elem_of_app, !elem_of_cons. split.
    + intros He. split; [|ptauto].
      eapply absent_not_elem; eauto; apply elem_of_app; ptauto.
    + intros [Hne [?|[->|?]]]; ptauto.
Qed.

(* =============================================================== *)
(** ** Rows of the container *)

Lemma stored_lookup (adj : bqm) u w c r :
  adj !! u = Some r → stored adj u w c ↔ (w, c) ∈ r.1.
Proof.
  intros Hr. unfold stored. split.
  - intros (r' & Hr' & Hin). congruence.
  - eauto.
Qed.

Lemma stored_lt (adj : bqm) u w c : stored adj u w c → u < length adj.
Proof. intros (r & Hr & _). by eapply lookup_lt_Some. Qed.

Lemma stored_insert (adj : bqm) u r x y c :
  u < length adj →
  stored (<[u := r]> adj) x y c ↔
  (x = u ∧ (y, c) ∈ r.1) ∨ (x ≠ u ∧ stored adj x y c).
Proof.
  intros Hu. unfold stored. destruct (decide (x = u)) as [->|Hne].
  - rewrite list_lookup_insert_eq by done. split.
    + intros (r' & [= <-] & Hin). by left.
    + intros [[_ Hin]|[Hne _]]; [by exists r|done].
  - rewrite list_lookup_insert_ne by done. split.
    + intros H. by right.
    + intros [[-> _]|[_ H]]; done.
Qed.

Lemma rows_sorted_insert (adj : bqm) u r :
  rows_sorted adj → nb_sorted r.1 → rows_sorted (<[u := r]> adj).
Proof.
  intros Hs Hr x rx Hx. destruct (decide (x = u)) as [->|Hne].
  - destruct (decide (u < length adj)).
    + rewrite list_lookup_insert_eq in Hx by done. congruence.
    + rewrite list_insert_ge in Hx by lia. eauto.
  - rewrite list_lookup_insert_ne in Hx by done. eauto.
Qed.

Lemma get_linear_insert (adj : bqm) u r r0 x :
  adj !! u = Some r0 → r.2 = r0.2 →
  get_linear (<[u := r]> adj) x = get_linear adj x.
Proof.
  intros Hu Heq. unfold get_linear. destruct (decide (x = u)) as [->|Hne].
  - rewrite list_lookup_insert_eq by (by eapply lookup_lt_Some).
    rewrite Hu. simpl. by rewrite Heq.
  - by rewrite list_lookup_insert_ne.
Qed.

(** The entries counted by [num_interactions]. *)
Lemma count_entries_acc (adj : bqm) k :
  count_entries adj k = k + count_entries adj 0.
Proof.
  revert k. induction adj as [|r adj IH]; intros k; simpl; [lia|].
  rewrite (IH (k + _)), (IH (length r.1)). lia.
Qed.

Lemma count_entries_cons (adj : bqm) r :
  count_entries (r :: adj) 0 = length r.1 + count_entries adj 0.
Proof. simpl. by rewrite count_entries_acc. Qed.

Lemma count_entries_app (adj1 adj2 : bqm) :
  count_entries (adj1 ++ adj2) 0 = count_entries adj1 0 + count_entries adj2 0.
Proof.
  induction adj1 as [|r adj1 IH]; [done|].
  rewrite <- app_comm_cons, !count_entries_cons, IH. lia.
Qed.

Lemma count_entries_insert (adj : bqm) u r r0 :
  adj !! u = Some r0 →
  count_entries (<[u := r]> adj) 0 + length r0.1
  = count_entries adj 0 + length r.1.
Proof.
  intros Hu. pose proof (lookup_lt_Some _ _ _ Hu) as Hlt.
  rewrite insert_take_drop by done.
  rewrite <- (take_drop_middle adj u r0 Hu) at 3.
  rewrite !count_entries_app, !count_entries_cons. lia.
Qed.

Lemma sum_list_with_ext_elem (f g : nat → nat) (l : list nat) :
  (∀ x, x ∈ l → f x = g x) → sum_list_with f l = sum_list_with g l.
Proof.
  induction l as [|a l IH]; intros Hfg; simpl; [done|].
  rewrite Hfg by (apply elem_of_cons; by left).
  rewrite IH; [done|]. intros x Hx. apply Hfg, elem_of_cons. by right.
Qed.

Lemma total_degree_count (adj : bqm) :
  total_degree adj = count_entries adj 0.
Proof.
  unfold total_degree, num_variables, degree.
  induction adj as [|r adj IH] using rev_ind; [done|].
  rewrite length_app, count_entries_app, count_entries_cons. simpl.
  rewrite Nat.add_1_r, seq_S, sum_list_with_app. simpl.
  rewrite list_lookup_middle by done. simpl. rewrite <- IH.
  f_equal. apply sum_list_with_ext_elem.
  intros x Hx. apply elem_of_seq in Hx.
  by rewrite lookup_app_l by lia.
Qed.

(* =============================================================== *)
(** ** Queries *)

Lemma get_quadratic_present (adj : bqm) u v c :
  rows_sorted adj → u < length adj → v < length adj → u ≠ v →
  stored adj u v c → get_quadratic adj u v = Some (c, true).
Proof.
  intros Hs Hu Hv Huv (r & Hr & Hin).
  unfold get_quadratic, neighborhood.
  rewrite decide_True by done. rewrite decide_True by done.
  rewrite Hr. simpl.
  apply found_at_lookup in Hin; [|by eapply Hs]. rewrite Hin. simpl.
  by rewrite decide_False by ptauto.
Qed.

Lemma get_quadratic_absent (adj : bqm) u v :
  rows_sorted adj → u < length adj → v < length adj → u ≠ v →
  (∀ c, ¬ stored adj u v c) → get_quadratic adj u v = Some (bzero, false).
Proof.
  intros Hs Hu Hv Huv Hno.
  destruct (lookup_lt_is_Some_2 adj u Hu) as [r Hr].
  unfold get_quadratic, neighborhood.
  rewrite decide_True by done. rewrite decide_True by done.
  rewrite Hr. simpl.
  destruct (r.1 !! lower_bound r.1 v) as [[w c]|] eqn:He; [|done].
  simpl. destruct (decide (w ≠ v)) as [|Heq]; [done|].
  assert (w = v) as -> by lia.
  destruct (Hno c). exists r. split; [done|].
  by eapply list_elem_of_lookup_2.
Qed.

(** [get_quadratic] answers from the stored entries, and from nothing
    else. *)
Lemma get_quadratic_stored (adj : bqm) u v c :
  rows_sorted adj → u < length adj → v < length adj → u ≠ v →
  get_quadratic adj u v = Some (c, true) ↔ stored adj u v c.
Proof.
  intros Hs Hu Hv Huv. split; [|by apply get_quadratic_present].
  destruct (lookup_lt_is_Some_2 adj u Hu) as [r Hr].
  unfold get_quadratic, neighborhood.
  rewrite decide_True by done. rewrite decide_True by done.
  rewrite Hr. simpl.
  destruct (r.1 !! lower_bound r.1 v) as [[w c']|] eqn:He; [|done].
  simpl. destruct (decide (w ≠ v)) as [|Heq]; [done|].
  assert (w = v) as -> by lia. intros [= ->].
  exists r. split; [done|]. by eapply list_elem_of_lookup_2.
Qed.

Lemma get_quadratic_total (adj : bqm) u v :
  rows_sorted adj → u < length adj → v < length adj → u ≠ v →
  (∃ c, stored adj u v c ∧ get_quadratic adj u v = Some (c, true)) ∨
  ((∀ c, ¬ stored adj u v c) ∧ get_quadratic adj u v = Some (bzero, false)).
Proof.
  intros Hs Hu Hv Huv.
  destruct (lookup_lt_is_Some_2 adj u Hu) as [r Hr].
  destruct (found_at r.1 (lower_bound r.1 v) v) eqn:Hf.
  - apply found_at_iff in Hf as [c Hc]; [|by eapply Hs].
    left. exists c. assert (stored adj u v c) by (by exists r).
    split; [done|]. by apply get_quadratic_present.
  - right.
    assert (∀ c, ¬ stored adj u v c) as Hno.
    { intros c (r' & Hr' & Hin). assert (r' = r) as -> by congruence.
      assert (found_at r.1 (lower_bound r.1 v) v = true); [|congruence].
      apply found_at_iff; [by eapply Hs|]. eauto. }
    split; [done|]. by apply get_quadratic_absent.
Qed.

(* =============================================================== *)
(** ** [set_quadratic] *)

(** In a valid state the two searches of an edge agree; the assertions
    of [set_quadratic] and [remove_interaction] rest on this. *)
Lemma found_at_symmetric (adj : bqm) u v ru rv :
  valid adj → adj !! u = Some ru → adj !! v = Some rv →
  found_at rv.1 (lower_bound rv.1 u) u = found_at ru.1 (lower_bound ru.1 v) v.
Proof.
  intros [Hs _ Hsym] Hu Hv. apply Bool.eq_iff_eq_true.
  rewrite !found_at_iff by (by eapply Hs).
  split; intros [c Hc]; exists c.
  - eapply (stored_lookup adj u); [done|]. apply Hsym. by exists rv.
  - eapply (stored_lookup adj v); [done|]. apply Hsym. by exists ru.
Qed.

Lemma set_quadratic_spec (adj : bqm) u v b :
  valid adj → u < length adj → v < length adj → u ≠ v →
  ∃ adj', set_quadratic adj u v b = Some (adj', true) ∧
    length adj' = length adj ∧
    rows_sorted adj' ∧
    (∀ x, get_linear adj' x = get_linear adj x) ∧
    (∀ x y c, stored adj' x y c ↔
       (same_edge u v x y ∧ c = b) ∨
       (¬ same_edge u v x y ∧ stored adj x y c)) ∧
    (((∃ c, stored adj u v c) ∧
      count_entries adj' 0 = count_entries adj 0) ∨
     ((∀ c, ¬ stored adj u v c) ∧
      count_entries adj' 0 = count_entries adj 0 + 2)).
Proof.
  intros Hval Hu Hv Huv. pose proof Hval as [Hs Hn Hsym].
  destruct (lookup_lt_is_Some_2 adj u Hu) as [ru Hru].
  destruct (lookup_lt_is_Some_2 adj v Hv) as [rv Hrv].
  pose proof (found_at_symmetric adj u v ru rv Hval Hru Hrv) as Hfs.
  pose proof (found_at_iff ru.1 v (Hs _ _ Hru)) as Hfi.
  unfold set_quadratic. rewrite decide_True by done.
  rewrite Hru. simpl.
  destruct (found_at ru.1 (lower_bound ru.1 v) v) eqn:Hf.
  - (* the edge exists: both copies are overwritten *)
    rewrite list_lookup_insert_ne by done. rewrite Hrv. simpl.
    rewrite decide_True by done.
    destruct (assign_second_spec ru.1 v b (Hs _ _ Hru) Hf) as (Hsu & Hlu & Hmu).
    destruct (assign_second_spec rv.1 u b (Hs _ _ Hrv) Hfs) as (Hsv & Hlv & Hmv).
    eexists. split; [done|]. split_and!.
    + by rewrite !length_insert.
    + by repeat apply rows_sorted_insert.
    + intros x. rewrite (get_linear_insert _ v _ rv), (get_linear_insert _ u _ ru);
        try done. by rewrite list_lookup_insert_ne.
    + intros x y c. rewrite !stored_insert by (by rewrite ?length_insert).
      simpl. rewrite Hmu, Hmv. unfold same_edge. simpl.
      rewrite <- (stored_lookup adj u y c ru Hru).
      rewrite <- (stored_lookup adj v y c rv Hrv).
      split.
      * intros [[-> [[= -> ->]|[Hy Hst]]]|[Hx [[-> [[= -> ->]|[Hy Hst]]]|[Hx' Hst]]]];
          try (left; split; [ptauto|done]); right; (split; [|done]); lia.
      * intros [[[[-> ->]|[-> ->]] ->]|[Hne Hst]]; [ptauto|ptauto|].
        destruct (decide (x = v)) as [->|Hxv]; [left|right; split; [done|]].
        { split; [done|]. right. split; [|done]. intros ->. ptauto. }
        destruct (decide (x = u)) as [->|Hxu]; [left|right; done].
        split; [done|]. right. split; [|done]. intros ->. ptauto.
    + left. split.
      { destruct (proj1 Hfi eq_refl) as [c Hc]. exists c.
        by apply (stored_lookup adj u v c ru). }
      pose proof (count_entries_insert adj u (assign_second (lower_bound ru.1 v) b ru.1, ru.2) ru Hru) as H1.
      pose proof (count_entries_insert
        (<[u := (assign_second (lower_bound ru.1 v) b ru.1, ru.2)]> adj) v
        (assign_second (lower_bound rv.1 u) b rv.1, rv.2) rv) as H2.
      rewrite list_lookup_insert_ne in H2 by done. specialize (H2 Hrv).
      simpl in *. lia.
  - (* the edge is absent: one entry is inserted on each side *)
    rewrite list_lookup_insert_ne by done. rewrite Hrv. simpl.
    rewrite decide_True by done.
    destruct (emplace_spec ru.1 v b (Hs _ _ Hru) Hf) as (Hsu & Hlu & Hmu).
    destruct (emplace_spec rv.1 u b (Hs _ _ Hrv) Hfs) as (Hsv & Hlv & Hmv).
    eexists. split; [done|]. split_and!.
    + by rewrite !length_insert.
    + by repeat apply rows_sorted_insert.
    + intros x. rewrite (get_linear_insert _ v _ rv), (get_linear_insert _ u _ ru);
        try done. by rewrite list_lookup_insert_ne.
    + intros x y c. rewrite !stored_insert by (by rewrite ?length_insert).
      simpl. rewrite Hmu, Hmv. unfold same_edge. simpl.
      rewrite <- (stored_lookup adj u y c ru Hru).
      rewrite <- (stored_lookup adj v y c rv Hrv).
      split.
      * intros [[-> [[= -> ->]|[Hy Hst]]]|[Hx [[-> [[= -> ->]|[Hy Hst]]]|[Hx' Hst]]]];
          try (left; split; [ptauto|done]); right; (split; [|done]); lia.
      * intros [[[[-> ->]|[-> ->]] ->]|[Hne Hst]]; [ptauto|ptauto|].
        destruct (decide (x = v)) as [->|Hxv]; [left|right; split; [done|]].
        { split; [done|]. right. split; [|done]. intros ->. ptauto. }
        destruct (decide (x = u)) as [->|Hxu]; [left|right; done].
        split; [done|]. right. split; [|done]. intros ->. ptauto.
    + right. split.
      { intros c Hc. assert (false = true); [|done].
        apply Hfi. exists c. by apply (stored_lookup adj u v c ru). }
      pose proof (count_entries_insert adj u (emplace (lower_bound ru.1 v) (v, b) ru.1, ru.2) ru Hru) as H1.
      pose proof (count_entries_insert
        (<[u := (emplace (lower_bound ru.1 v) (v, b) ru.1, ru.2)]> adj) v
        (emplace (lower_bound rv.1 u) (u, b) rv.1, rv.2) rv) as H2.
      rewrite list_lookup_insert_ne in H2 by done. specialize (H2 Hrv).
      simpl in *. lia.
Qed.

Lemma set_quadratic_valid (adj adj' : bqm) u v b r :
  valid adj → set_quadratic adj u v b = Some (adj', r) → valid adj'.
Proof.
  intros Hval Hset. pose proof Hval as [Hs Hn Hsym].
  assert (u < length adj ∧ v < length adj ∧ u ≠ v) as (Hu & Hv & Huv).
  { unfold set_quadratic in Hset. by case_decide. }
  destruct (set_quadratic_spec adj u v b Hval Hu Hv Huv)
    as (adj2 & Heq & Hlen & Hs' & _ & Hst & _).
  rewrite Hset in Heq. injection Heq as -> ->.
  split; [done| |].
  - intros x c [[Hse _]|[_ Hx]]%Hst; [|by eapply Hn].
    unfold same_edge in Hse. lia.
  - intros x y c [[Hse ->]|[Hse Hx]]%Hst; apply Hst.
    + left. unfold same_edge in *. split; [ptauto|done].
    + right. unfold same_edge in *. split; [ptauto|by apply Hsym].
Qed.

(* =============================================================== *)
(** ** [remove_interaction] *)

Lemma remove_interaction_spec (adj : bqm) u v :
  valid adj → u < length adj → v < length adj →
  ((∃ c, stored adj u v c) ∧
   ∃ adj', remove_interaction adj u v = Some (adj', true) ∧
     length adj' = length adj ∧
     rows_sorted adj' ∧
     (∀ x, get_linear adj' x = get_linear adj x) ∧
     (∀ x y c, stored adj' x y c ↔
        ¬ same_edge u v x y ∧ stored adj x y c) ∧
     count_entries adj' 0 + 2 = count_entries adj 0) ∨
  ((∀ c, ¬ stored adj u v c) ∧
   remove_interaction adj u v = Some (adj, false)).
Proof.
  intros Hval Hu Hv. pose proof Hval as [Hs Hn Hsym].
  destruct (lookup_lt_is_Some_2 adj u Hu) as [ru Hru].
  destruct (lookup_lt_is_Some_2 adj v Hv) as [rv Hrv].
  pose proof (found_at_symmetric adj u v ru rv Hval Hru Hrv) as Hfs.
  pose proof (found_at_iff ru.1 v (Hs _ _ Hru)) as Hfi.
  unfold remove_interaction. rewrite decide_True by done.
  rewrite Hru. simpl.
  destruct (found_at ru.1 (lower_bound ru.1 v) v) eqn:Hf.
  - left. destruct (proj1 Hfi eq_refl) as [c0 Hc0].
    assert (stored adj u v c0) as Hst0 by (by exists ru).
    assert (u ≠ v) as Huv by (intros ->; by eapply Hn).
    split; [by exists c0|].
    destruct (erase_spec ru.1 v (Hs _ _ Hru) Hf) as (nu & -> & Hsu & Hlu & Hmu).
    destruct (erase_spec rv.1 u (Hs _ _ Hrv) Hfs) as (nv & Hev & Hsv & Hlv & Hmv).
    simpl. rewrite list_lookup_insert_ne by done. rewrite Hrv. simpl.
    rewrite decide_True by done. rewrite Hev. simpl.
    eexists. split; [done|]. split_and!.
    + by rewrite !length_insert.
    + by repeat apply rows_sorted_insert.
    + intros x. rewrite (get_linear_insert _ v _ rv), (get_linear_insert _ u _ ru);
        try done. by rewrite list_lookup_insert_ne.
    + intros x y c. rewrite !stored_insert by (by rewrite ?length_insert).
      simpl. rewrite Hmu, Hmv. unfold same_edge. simpl.
      rewrite <- (stored_lookup adj u y c ru Hru).
      rewrite <- (stored_lookup adj v y c rv Hrv).
      split.
      * intros [[-> [Hy Hst]]|[Hx [[-> [Hy Hst]]|[Hx' Hst]]]];
          (split; [|done]); lia.
      * intros [Hne Hst].
        destruct (decide (x = v)) as [->|Hxv]; [left|right; split; [done|]].
        { split; [done|]. split; [|done]. intros ->. ptauto. }
        destruct (decide (x = u)) as [->|Hxu]; [left|right; done].
        split; [done|]. split; [|done]. intros ->. ptauto.
    + pose proof (count_entries_insert adj u (nu, ru.2) ru Hru) as H1.
      pose proof (count_entries_insert (<[u := (nu, ru.2)]> adj) v
        (nv, rv.2) rv) as H2.
      rewrite list_lookup_insert_ne in H2 by done. specialize (H2 Hrv).
      simpl in *. lia.
  - right. split; [|done].
    intros c Hc. assert (false = true); [|done].
    apply Hfi. exists c. by apply (stored_lookup adj u v c ru).
Qed.

Lemma remove_interaction_valid (adj adj' : bqm) u v r :
  valid adj → remove_interaction adj u v = Some (adj', r) → valid adj'.
Proof.
  intros Hval Hrem. pose proof Hval as [Hs Hn Hsym].
  assert (u < length adj ∧ v < length adj) as (Hu & Hv).
  { unfold remove_interaction in Hrem. by case_decide. }
  destruct (remove_interaction_spec adj u v Hval Hu Hv)
    as [(_ & adj2 & Heq & Hlen & Hs' & _ & Hst & _)|[_ Heq]];
    rewrite Hrem in Heq; injection Heq as -> ->; [|done].
  split; [done| |].
  - intros x c [_ Hx]%Hst. by eapply Hn.
  - intros x y c [Hse Hx]%Hst. apply Hst.
    unfold same_edge in *. split; [ptauto|by apply Hsym].
Qed.

(* =============================================================== *)
(** ** [set_linear] and [add_variable] *)

Lemma set_linear_spec (adj : bqm) v b :
  v < length adj →
  ∃ adj', set_linear adj v b = Some adj' ∧
    length adj' = length adj ∧
    (∀ x, adj'.*1 !! x = adj.*1 !! x) ∧
    get_linear adj' v = Some b ∧
    (∀ x, x ≠ v → get_linear adj' x = get_linear adj x).
Proof.
  intros Hv. destruct (lookup_lt_is_Some_2 adj v Hv) as [r Hr].
  unfold set_linear. rewrite decide_True by done. rewrite Hr. simpl.
  eexists. split; [done|]. split_and!.
  - by rewrite length_insert.
  - intros x. rewrite !list_lookup_fmap.
    destruct (decide (x = v)) as [->|Hne].
    + rewrite list_lookup_insert_eq by done. by rewrite Hr.
    + by rewrite list_lookup_insert_ne.
  - unfold get_linear. by rewrite list_lookup_insert_eq.
  - intros x Hx. unfold get_linear. by rewrite list_lookup_insert_ne.
Qed.

Lemma stored_fst (adj adj' : bqm) :
  (∀ x, adj'.*1 !! x = adj.*1 !! x) →
  ∀ x y c, stored adj' x y c ↔ stored adj x y c.
Proof.
  assert (∀ a a' : bqm, (∀ x, a'.*1 !! x = a.*1 !! x) →
            ∀ x y c, stored a' x y c → stored a x y c) as Hone.
  { intros a a' Heq x y c (r & Hr & Hin). specialize (Heq x).
    rewrite !list_lookup_fmap, Hr in Heq. simpl in Heq.
    destruct (a !! x) as [r'|] eqn:Hr'; [|done].
    exists r'. split; [done|]. simpl in Heq. congruence. }
  intros Heq x y c. split; apply Hone; [done|]. intros z. by rewrite Heq.
Qed.

Lemma valid_fst (adj adj' : bqm) :
  (∀ x, adj'.*1 !! x = adj.*1 !! x) → valid adj → valid adj'.
Proof.
  intros Heq [Hs Hn Hsym]. pose proof (stored_fst adj adj' Heq) as Hst.
  split.
  - intros x r Hr. specialize (Heq x).
    rewrite !list_lookup_fmap, Hr in Heq. simpl in Heq.
    destruct (adj !! x) as [r'|] eqn:Hr'; [|done].
    simpl in Heq. assert (r.1 = r'.1) as -> by congruence. by eapply Hs.
  - intros x c Hx%Hst. by eapply Hn.
  - intros x y c Hx%Hst. by apply Hst, Hsym.
Qed.

Lemma set_linear_valid (adj adj' : bqm) v b :
  valid adj → set_linear adj v b = Some adj' → valid adj'.
Proof.
  intros Hval Hset.
  assert (v < length adj) as Hv.
  { unfold set_linear in Hset. by case_decide. }
  destruct (set_linear_spec adj v b Hv) as (adj2 & Heq & _ & Hfst & _).
  rewrite Hset in Heq. injection Heq as ->. by eapply valid_fst.
Qed.

Lemma add_variable_eq (adj : bqm) :
  add_variable adj = (adj ++ [([], bzero)], length adj).
Proof.
  unfold add_variable.
  rewrite resize_ge by lia.
  replace (length adj + 1 - length adj) with 1 by lia. simpl.
  rewrite length_app. simpl. f_equal. lia.
Qed.

Lemma stored_snoc_empty (adj : bqm) b x y c :
  stored (adj ++ [([], b)]) x y c ↔ stored adj x y c.
Proof.
  unfold stored. split; intros (r & Hr & Hin).
  - apply lookup_app_Some in Hr as [Hr|[_ Hr]]; [by exists r|].
    apply list_lookup_singleton_Some in Hr as [_ <-].
    by apply elem_of_nil in Hin.
  - exists r. split; [|done]. by apply lookup_app_l_Some.
Qed.

Lemma add_variable_valid (adj : bqm) :
  valid adj → valid (add_variable adj).1.
Proof.
  intros [Hs Hn Hsym]. rewrite add_variable_eq. simpl. split.
  - intros x r [Hr|[_ Hr]]%lookup_app_Some; [by eapply Hs|].
    apply list_lookup_singleton_Some in Hr as [_ <-]. constructor.
  - intros x c Hx%stored_snoc_empty. by eapply Hn.
  - intros x y c Hx%stored_snoc_empty. by apply stored_snoc_empty, Hsym.
Qed.

(* =============================================================== *)
(** ** [pop_variable] *)

Lemma nb_sorted_NoDup (l : outvars) : nb_sorted l → NoDup l.*1.
Proof.
  induction 1 as [|a l Hs IH Hall]; simpl; constructor; [|done].
  intros (y & Hy & Hin)%list_elem_of_fmap.
  rewrite Forall_forall in Hall. specialize (Hall _ Hin).
  unfold key_lt in Hall. lia.
Qed.

(** The loop erases, for every entry [(w, _)] it visits, the entry of [v]
    from the neighborhood of [w], and touches nothing else. *)
Lemma pop_loop_spec v (its : outvars) : ∀ adj : bqm,
  NoDup its.*1 →
  (∀ e, e ∈ its →
     e.1 ≠ v ∧ ∃ r, adj !! e.1 = Some r ∧ nb_sorted r.1 ∧ ∃ c, (v, c) ∈ r.1) →
  ∃ adj', pop_loop v its adj = Some adj' ∧
    length adj' = length adj ∧
    (∀ x, x ∉ its.*1 → adj' !! x = adj !! x) ∧
    (∀ x r, x ∈ its.*1 → adj !! x = Some r →
       ∃ nb, adj' !! x = Some (nb, r.2) ∧ nb_sorted nb ∧
         ∀ e, e ∈ nb ↔ e.1 ≠ v ∧ e ∈ r.1) ∧
    count_entries adj' 0 + length its = count_entries adj 0.
Proof.
  induction its as [|it its IH]; intros adj Hnd Hpre.
  - exists adj. simpl. split_and!; try done; try lia.
    intros x r Hx. by apply elem_of_nil in Hx.
  - rewrite fmap_cons in Hnd. apply NoDup_cons in Hnd as [Hnotin Hnd].
    destruct (Hpre it) as (Hne & r & Hr & Hsr & Hc); [apply elem_of_cons; by left|].
    cbn [pop_loop]. rewrite decide_False by done. rewrite Hr. simpl.
    apply found_at_iff in Hc; [|done].
    destruct (erase_spec r.1 v Hsr Hc) as (nb & -> & Hsnb & Hlnb & Hmnb).
    simpl.
    destruct (IH (<[it.1 := (nb, r.2)]> adj) Hnd)
      as (adj' & -> & Hlen & Hout & Hin & Hcnt).
    { intros e He. destruct (Hpre e) as (? & re & Hre & ?);
        [apply elem_of_cons; by right|].
      split; [done|]. exists re. split; [|done].
      rewrite list_lookup_insert_ne; [done|].
      intros Heq. apply Hnotin. rewrite Heq.
      apply list_elem_of_fmap. by exists e. }
    pose proof (lookup_lt_Some _ _ _ Hr) as Hlt.
    exists adj'. split; [done|]. split_and!.
    + by rewrite Hlen, length_insert.
    + intros x Hx. apply not_elem_of_cons in Hx as [Hx1 Hx2].
      rewrite Hout by done. by rewrite list_lookup_insert_ne.
    + intros x rx Hx Hrx. apply elem_of_cons in Hx.
      destruct (decide (x = it.1)) as [->|Hxne].
      * assert (rx = r) as -> by congruence.
        exists nb. rewrite Hout by done.
        by rewrite list_lookup_insert_eq.
      * destruct Hx as [?|Hx]; [done|].
        apply (Hin x rx Hx). by rewrite list_lookup_insert_ne.
    + pose proof (count_entries_insert adj it.1 (nb, r.2) r Hr) as H1.
      simpl in *. lia.
Qed.

Lemma pop_variable_spec (adj : bqm) :
  valid adj → 0 < length adj →
  ∃ adj' rv, pop_variable adj = Some (adj', length adj - 1) ∧
    adj !! (length adj - 1) = Some rv ∧
    length adj' = length adj - 1 ∧
    rows_sorted adj' ∧
    (∀ x, x < length adj - 1 → get_linear adj' x = get_linear adj x) ∧
    (∀ x y c, stored adj' x y c ↔
       x ≠ length adj - 1 ∧ y ≠ length adj - 1 ∧ stored adj x y c) ∧
    count_entries adj' 0 + 2 * length rv.1 = count_entries adj 0.
Proof.
  intros Hval Hpos. pose proof Hval as [Hs Hn Hsym].
  set (v := length adj - 1).
  assert (v < length adj) as Hv by (unfold v; lia).
  destruct (lookup_lt_is_Some_2 adj v Hv) as [rv Hrv].
  destruct (pop_loop_spec v rv.1 adj) as (adj1 & Hloop & Hlen & Hout & Hin & Hcnt).
  { apply nb_sorted_NoDup. by eapply Hs. }
  { intros [w c] He. assert (stored adj v w c) as Hst by (by exists rv).
    split; [intros Heq; simpl in Heq; subst w; by eapply Hn|].
    destruct (Hsym _ _ _ Hst) as (r & Hr & Hrin).
    exists r. split; [done|]. split; [by eapply Hs|]. by exists c. }
  assert (v ∉ rv.1.*1) as Hvnot.
  { intros (e & He1 & He2)%list_elem_of_fmap. destruct e as [w c].
    simpl in He1. subst w. eapply Hn. by exists rv. }
  assert (∀ x rx, x ≠ v → adj !! x = Some rx →
            ∃ nb, adj1 !! x = Some (nb, rx.2) ∧ nb_sorted nb ∧
              ∀ e, e ∈ nb ↔ e.1 ≠ v ∧ e ∈ rx.1) as Hrow.
  { intros x rx Hxv Hrx. destruct (decide (x ∈ rv.1.*1)) as [Hx|Hx].
    - by apply Hin.
    - exists rx.1. rewrite Hout by done. rewrite Hrx.
      split; [by destruct rx|]. split; [by eapply Hs|].
      intros [w c]. split; [|ptauto]. intros He. split; [|done].
      simpl. intros ->. apply Hx.
      assert (stored adj x v c) as Hst by (by exists rx).
      destruct (Hsym _ _ _ Hst) as (r' & Hr' & Hr'in).
      assert (r' = rv) as -> by congruence.
      apply list_elem_of_fmap. by exists (x, c). }
  exists (take (length adj1 - 1) adj1), rv.
  unfold pop_variable. rewrite decide_True by done.
  fold v. rewrite Hrv. simpl. rewrite Hloop. simpl.
  rewrite length_take_le by lia. rewrite Hlen. fold v.
  split; [done|]. split; [done|]. split; [done|]. split_and!.
  - intros x r [Hr Hx]%lookup_take_Some.
    destruct (lookup_lt_is_Some_2 adj x) as [rx Hrx]; [lia|].
    destruct (Hrow x rx) as (nb & Hnb & Hsnb & _); [lia|done|].
    assert (r = (nb, rx.2)) as -> by congruence. done.
  - intros x Hx. unfold get_linear. rewrite lookup_take_lt by done.
    destruct (lookup_lt_is_Some_2 adj x) as [rx Hrx]; [lia|].
    destruct (Hrow x rx) as (nb & Hnb & _); [lia|done|].
    by rewrite Hnb, Hrx.
  - intros x y c. split.
    + intros (r & [Hr Hx]%lookup_take_Some & Hrin).
      destruct (lookup_lt_is_Some_2 adj x) as [rx Hrx]; [lia|].
      destruct (Hrow x rx) as (nb & Hnb & _ & Hmem); [lia|done|].
      assert (r = (nb, rx.2)) as -> by congruence.
      apply Hmem in Hrin as [Hy Hrin]. split; [lia|]. split; [done|].
      by exists rx.
    + intros (Hx & Hy & rx & Hrx & Hrin).
      pose proof (lookup_lt_Some _ _ _ Hrx) as Hlt.
      destruct (Hrow x rx) as (nb & Hnb & _ & Hmem); [done..|].
      exists (nb, rx.2). split; [|by apply Hmem].
      apply lookup_take_Some. split; [done|]. unfold v in *. lia.
  - assert (adj1 = take v adj1 ++ [rv]) as Hsplit.
    { rewrite <- (take_drop v adj1) at 1. f_equal.
      assert (adj1 !! v = Some rv) as H1 by (by rewrite Hout).
      apply drop_S in H1. rewrite H1.
      by rewrite drop_ge by lia. }
    rewrite Hsplit, count_entries_app, count_entries_cons in Hcnt.
    simpl in Hcnt. lia.
Qed.

Lemma pop_variable_valid (adj adj' : bqm) r :
  valid adj → pop_variable adj = Some (adj', r) → valid adj'.
Proof.
  intros Hval Hpop. pose proof Hval as [Hs Hn Hsym].
  assert (0 < length adj) as Hpos.
  { unfold pop_variable in Hpop. by case_decide. }
  destruct (pop_variable_spec adj Hval Hpos)
    as (adj2 & rv & Heq & _ & _ & Hs' & _ & Hst & _).
  rewrite Hpop in Heq. injection Heq as -> ->.
  split; [done| |].
  - intros x c (_ & _ & Hx)%Hst. by eapply Hn.
  - intros x y c (Hx & Hy & Hxy)%Hst. apply Hst. split_and!; try done.
    by apply Hsym.
Qed.

(* =============================================================== *)
(** ** Loops *)

Lemma for_each_partial (P : nat → bqm → Prop) body len : ∀ start adj adj',
  for_each (seq start len) body adj = Some adj' →
  P start adj →
  (∀ i a a', start ≤ i < start + len → P i a → body i a = Some a' →
     P (S i) a') →
  P (start + len) adj'.
Proof.
  induction len as [|len IH]; intros start adj adj' Hrun HP Hstep; simpl in Hrun.
  - rewrite Nat.add_0_r. congruence.
  - destruct (body start adj) as [adj1|] eqn:Hb; [|done]. simpl in Hrun.
    replace (start + S len) with (S start + len) by lia.
    apply (IH (S start) adj1 adj' Hrun).
    + apply (Hstep start adj); [lia|done..].
    + intros i a a' Hi. apply Hstep. lia.
Qed.

Lemma for_each_total (P : nat → bqm → Prop) body len : ∀ start adj,
  P start adj →
  (∀ i a, start ≤ i < start + len → P i a →
     ∃ a', body i a = Some a' ∧ P (S i) a') →
  ∃ adj', for_each (seq start len) body adj = Some adj' ∧
    P (start + len) adj'.
Proof.
  induction len as [|len IH]; intros start adj HP Hstep; simpl.
  - exists adj. by rewrite Nat.add_0_r.
  - destruct (Hstep start adj) as (adj1 & -> & HP1); [lia|done|]. simpl.
    replace (start + S len) with (S start + len) by lia.
    apply IH; [done|]. intros i a Hi. apply Hstep. lia.
Qed.

(* =============================================================== *)
(** ** The dense constructor *)

Lemma emplace_back_spec (a : bqm) u e ru :
  a !! u = Some ru →
  emplace_back a u e = Some (<[u := (ru.1 ++ [e], ru.2)]> a).
Proof. intros Hu. unfold emplace_back. by rewrite Hu. Qed.

Lemma fmap_snd_insert (a : bqm) u r nb :
  a !! u = Some r → (<[u := (nb, r.2)]> a).*2 = a.*2.
Proof.
  intros Hu. rewrite list_fmap_insert. simpl.
  apply list_insert_id. by rewrite list_lookup_fmap, Hu.
Qed.

Lemma nb_sorted_snoc (l : outvars) e :
  nb_sorted l → (∀ x, x ∈ l → x.1 < e.1) → nb_sorted (l ++ [e]).
Proof.
  intros Hs Hlt. apply StronglySorted_app. split_and!; [|done|].
  - intros x1 x2 Hx1 ->%list_elem_of_singleton. by apply Hlt.
  - repeat constructor.
Qed.

Lemma dense_bias_lt (dense : list B) n u v qa qb :
  u < v → dense !! (u * n + v) = Some qa → dense !! (v * n + u) = Some qb →
  dense_bias dense n u v = Some (badd qa qb) ∧
  dense_bias dense n v u = Some (badd qa qb).
Proof.
  intros Huv Ha Hb. unfold dense_bias.
  replace (u `min` v) with u by lia. replace (u `max` v) with v by lia.
  replace (v `min` u) with u by lia. replace (v `max` u) with v by lia.
  by rewrite Ha, Hb.
Qed.

Lemma dense_pair_inv (dense : list B) n lin u v (a a' : bqm) :
  u < v < n →
  dense_inv dense n lin u v a →
  dense_pair dense n u v a = Some a' →
  dense_inv dense n lin u (S v) a'.
Proof.
  intros Huv (Hlen & Hlin & Hs & Hst) Hrun. unfold dense_pair in Hrun.
  destruct (dense !! (u * n + v)) as [qa|] eqn:Ha; [|done].
  destruct (dense !! (v * n + u)) as [qb|] eqn:Hb; [|done].
  simpl in Hrun.
  destruct (dense_bias_lt dense n u v qa qb) as [Huv' Hvu']; [lia|done..|].
  set (q := badd qa qb) in *.
  destruct (bne q bzero) eqn:Hq.
  - destruct (lookup_lt_is_Some_2 a u) as [ru Hru]; [lia|].
    destruct (lookup_lt_is_Some_2 a v) as [rv Hrv]; [lia|].
    rewrite (emplace_back_spec a u _ ru Hru) in Hrun. simpl in Hrun.
    rewrite (emplace_back_spec _ v _ rv) in Hrun
      by (rewrite list_lookup_insert_ne by lia; done).
    injection Hrun as <-.
    assert (∀ y c, (y, c) ∈ ru.1 ↔ stored a u y c) as Hmu.
    { intros y c. symmetry. by apply stored_lookup. }
    assert (∀ y c, (y, c) ∈ rv.1 ↔ stored a v y c) as Hmv.
    { intros y c. symmetry. by apply stored_lookup. }
    split_and!.
    + by rewrite !length_insert.
    + rewrite fmap_snd_insert; [by rewrite fmap_snd_insert|].
      by rewrite list_lookup_insert_ne by lia.
    + apply rows_sorted_insert; [apply rows_sorted_insert; [done|]|]; simpl.
      * apply nb_sorted_snoc; [by eapply Hs|].
        intros [y c] Hy%Hmu%Hst. simpl. lia.
      * apply nb_sorted_snoc; [by eapply Hs|].
        intros [y c] Hy%Hmv%Hst. simpl. lia.
    + intros x y c. rewrite !stored_insert by (rewrite ?length_insert; lia).
      simpl. rewrite !elem_of_app, !list_elem_of_singleton, Hmu, Hmv, !Hst.
      split.
      * intros [[-> [H|[= -> ->]]]|[Hx [[-> [H|[= -> ->]]]|[Hx' H]]]];
          try (split_and!; [lia|lia|lia|lia|ptauto|ptauto]);
          (split_and!; [lia|lia|lia|lia|done|done]).
      * intros (Hx & Hy & Hxy & Hp & Hb' & Hne).
        destruct (decide (x = v)) as [->|Hxv].
        { left. split; [done|]. destruct (decide (y = u)) as [->|Hyu].
          - right. congruence.
          - left. split_and!; try done. lia. }
        right. split; [done|]. destruct (decide (x = u)) as [->|Hxu].
        { left. split; [done|]. destruct (decide (y = v)) as [->|Hyv].
          - right. congruence.
          - left. split_and!; try done. lia. }
        right. split; [done|]. split_and!; try done. lia.
  - injection Hrun as <-. split_and!; try done.
    intros x y c. rewrite Hst. split.
    + intros (Hx & Hy & Hxy & Hp & Hb' & Hne). split_and!; try done. lia.
    + intros (Hx & Hy & Hxy & Hp & Hb' & Hne). split_and!; try done.
      destruct (decide (x `min` y = u ∧ x `max` y = v)) as [[H1 H2]|Hn]; [|lia].
      assert ((x = u ∧ y = v) ∨ (x = v ∧ y = u)) as [[-> ->]|[-> ->]] by lia;
        congruence.
Qed.

Lemma dense_pair_success (dense : list B) n (a : bqm) u v :
  u < v < n → length a = n → n * n ≤ length dense →
  is_Some (dense_pair dense n u v a).
Proof.
  intros Huv Hlen Hd. unfold dense_pair.
  destruct (lookup_lt_is_Some_2 dense (u * n + v)) as [qa ->]; [nia|].
  destruct (lookup_lt_is_Some_2 dense (v * n + u)) as [qb ->]; [nia|].
  simpl. destruct (bne _ _); [|done].
  destruct (lookup_lt_is_Some_2 a u) as [ru Hru]; [lia|].
  rewrite (emplace_back_spec a u _ ru Hru). simpl.
  destruct (lookup_lt_is_Some_2 (<[u:=(ru.1 ++ [(v, badd qa qb)], ru.2)]> a) v)
    as [rv Hrv]; [rewrite length_insert; lia|].
  by rewrite (emplace_back_spec _ v _ rv Hrv).
Qed.

Lemma dense_pair_length (dense : list B) n (a a' : bqm) u v :
  dense_pair dense n u v a = Some a' → length a' = length a.
Proof.
  unfold dense_pair, emplace_back. intros Hrun.
  destruct (dense !! (u * n + v)) as [qa|]; [|done].
  destruct (dense !! (v * n + u)) as [qb|]; [|done]. simpl in Hrun.
  destruct (bne _ _); [|congruence].
  destruct (a !! u) as [ru|]; [|done]. simpl in Hrun.
  destruct (_ !! v) as [rv|]; [|done]. simpl in Hrun.
  injection Hrun as <-. by rewrite !length_insert.
Qed.

Lemma dense_row_inv (dense : list B) n lin u (a a' : bqm) :
  u < n →
  dense_inv dense n lin u (S u) a →
  dense_row dense n u a = Some a' →
  dense_inv dense n lin (S u) (S (S u)) a'.
Proof.
  intros Hu Hinv Hrun. unfold dense_row in Hrun.
  apply (for_each_partial (dense_inv dense n lin u)) in Hrun.
  - replace (u + 1 + (n - (u + 1))) with n in Hrun by lia.
    destruct Hrun as (Hlen & Hlin & Hs & Hst). split_and!; try done.
    intros x y c. rewrite Hst. split.
    + intros (Hx & Hy & Hxy & Hp & Hb & Hne). split_and!; try done. lia.
    + intros (Hx & Hy & Hxy & Hp & Hb & Hne). split_and!; try done. lia.
  - by replace (u + 1) with (S u) by lia.
  - intros v a1 a2 Hv. apply dense_pair_inv. lia.
Qed.

Lemma dense_row_success (dense : list B) n (a : bqm) u :
  u < n → length a = n → n * n ≤ length dense →
  ∃ a', dense_row dense n u a = Some a' ∧ length a' = n.
Proof.
  intros Hu Hlen Hd. unfold dense_row.
  apply (for_each_total (λ _ a, length a = n)); [done|].
  intros v a1 Hv Hlen1.
  destruct (dense_pair_success dense n a1 u v) as [a2 Ha2]; [lia|done..|].
  exists a2. split; [done|]. by rewrite (dense_pair_length _ _ _ _ _ _ Ha2).
Qed.

Lemma dense_diagonal_spec (dense : list B) n v (a a' : bqm) :
  dense_diagonal dense n v a = Some a' →
  length a' = length a ∧ a'.*1 = a.*1 ∧
  ∃ d, dense !! (v * (n + 1)) = Some d ∧ a'.*2 = <[v := d]> (a.*2).
Proof.
  unfold dense_diagonal. intros Hrun.
  destruct (dense !! (v * (n + 1))) as [d|]; [|done]. simpl in Hrun.
  destruct (a !! v) as [r|] eqn:Hr; [|done]. injection Hrun as <-.
  split_and!.
  - by rewrite length_insert.
  - rewrite list_fmap_insert. simpl. apply list_insert_id.
    by rewrite list_lookup_fmap, Hr.
  - exists d. split; [done|]. by rewrite list_fmap_insert.
Qed.

(** What the dense constructor builds, whenever it returns. *)
Lemma dense_spec (dense : list B) n ign (adj : bqm) :
  AdjVectorBQM_dense dense n ign = Some adj →
  ∃ lin, dense_inv dense n lin n (S n) adj ∧
    length lin = n ∧
    ∀ i, i < n →
      lin !! i = if ign then Some bzero else dense !! (i * (n + 1)).
Proof.
  unfold AdjVectorBQM_dense. rewrite resize_nil. intros Hrun.
  destruct (if negb ign then _ else _) as [adj1|] eqn:Hdiag; [|done].
  simpl in Hrun.
  assert (length adj1 = n ∧ adj1.*1 = replicate n [] ∧
          ∀ i, i < n → adj1.*2 !! i =
            if ign then Some bzero else dense !! (i * (n + 1)))
    as (Hlen1 & Hfst1 & Hsnd1).
  { destruct ign; simpl in Hdiag.
    - injection Hdiag as <-. rewrite length_replicate, !fmap_replicate.
      split_and!; [done..|]. intros i Hi. by apply lookup_replicate_2.
    - apply (for_each_partial (λ i a, length a = n ∧ a.*1 = replicate n [] ∧
        ∀ x, x < n → a.*2 !! x =
          if decide (x < i) then dense !! (x * (n + 1)) else Some bzero))
        in Hdiag.
      + destruct Hdiag as (H1 & H2 & H3). split_and!; [done..|].
        intros i Hi. rewrite H3 by done. by rewrite decide_True by lia.
      + rewrite length_replicate, !fmap_replicate. split_and!; [done..|].
        intros x Hx. rewrite decide_False by lia. by apply lookup_replicate_2.
      + intros i a a' Hi (H1 & H2 & H3) Hstep.
        apply dense_diagonal_spec in Hstep as (Hl & Hf & d & Hd & Hsnd).
        split_and!; [congruence..|].
        intros x Hx. rewrite Hsnd.
        destruct (decide (x = i)) as [->|Hne].
        * rewrite list_lookup_insert_eq by (rewrite length_fmap; lia).
          by rewrite decide_True by lia.
        * rewrite list_lookup_insert_ne by done. rewrite H3 by done.
          repeat case_decide; try done; lia. }
  exists (adj1.*2). split; [|split; [by rewrite length_fmap|done]].
  apply (for_each_partial (λ u a, dense_inv dense n (adj1.*2) u (S u) a))
    in Hrun; [done| |].
  - split_and!; [done..| |].
    + intros u r Hr. assert (r.1 = []) as ->; [|constructor].
      assert (adj1.*1 !! u = Some r.1) as Hr1
        by (by rewrite list_lookup_fmap, Hr).
      rewrite Hfst1 in Hr1. by apply lookup_replicate in Hr1 as [? _].
    + intros x y c. split; [|lia].
      intros (r & Hr & Hin).
      assert (adj1.*1 !! x = Some r.1) as Hr1
        by (by rewrite list_lookup_fmap, Hr).
      rewrite Hfst1 in Hr1. apply lookup_replicate in Hr1 as [Hr1 _].
      rewrite Hr1 in Hin. by apply elem_of_nil in Hin.
  - intros u a a' Hu. apply dense_row_inv. lia.
Qed.

Lemma dense_inv_valid (dense : list B) n lin u v (adj : bqm) :
  dense_inv dense n lin u v adj → valid adj.
Proof.
  intros (Hlen & Hlin & Hs & Hst). split; [done| |].
  - intros x c Hx%Hst. lia.
  - intros x y c (Hx & Hy & Hxy & Hp & Hb & Hne)%Hst. apply Hst.
    split_and!; try done; [lia|].
    unfold dense_bias in *.
    by rewrite (Nat.min_comm y x), (Nat.max_comm y x).
Qed.

Lemma dense_valid (dense : list B) n ign (adj : bqm) :
  AdjVectorBQM_dense dense n ign = Some adj → valid adj.
Proof.
  intros (lin & Hinv & _)%dense_spec. by eapply dense_inv_valid.
Qed.

(** The dense constructor returns on every array of [n * n] entries. *)
Lemma dense_total (dense : list B) n ign :
  n * n ≤ length dense → is_Some (AdjVectorBQM_dense dense n ign).
Proof.
  intros Hd. unfold AdjVectorBQM_dense. rewrite resize_nil.
  assert (∃ adj1 : bqm, (if negb ign
       then for_each (seq 0 n) (dense_diagonal dense n)
              (replicate n ([], bzero))
       else Some (replicate n ([], bzero))) = Some adj1 ∧ length adj1 = n)
    as (adj1 & -> & Hlen1).
  { destruct ign; simpl.
    - eexists. split; [done|]. by rewrite length_replicate.
    - apply (for_each_total (λ _ a, length a = n));
        [by rewrite length_replicate|].
      intros v a Hv Hlen. unfold dense_diagonal.
      destruct (lookup_lt_is_Some_2 dense (v * (n + 1))) as [d ->]; [nia|].
      destruct (lookup_lt_is_Some_2 a v) as [r ->]; [lia|]. simpl.
      eexists. split; [done|]. by rewrite length_insert. }
  simpl.
  destruct (for_each_total (λ _ a, length a = n) (dense_row dense n) n 0 adj1)
    as (adj & -> & _); [done| |done].
  intros u a Hu Hlen. apply dense_row_success; [lia|done..].
Qed.

(* =============================================================== *)
(** ** The copying constructor *)

Lemma copy_variable_spec (s a : bqm) v r :
  s !! v = Some r → a !! v = Some ([], bzero) →
  copy_variable (as_source s) v a = Some (<[v := r]> a).
Proof.
  intros Hs Ha. pose proof (lookup_lt_Some _ _ _ Hs) as Hlt.
  pose proof (lookup_lt_Some _ _ _ Ha) as Hlt'.
  unfold copy_variable, as_source, get_linear, neighborhood, set_linear.
  simpl. rewrite Hs. simpl. rewrite !decide_True by done.
  rewrite Ha. simpl.
  rewrite list_lookup_insert_eq by done. simpl.
  rewrite list_insert_insert_eq, app_nil_r. by destruct r.
Qed.

(** Copying an [AdjVectorBQM] yields its equal. *)
Lemma copy_as_source (s : bqm) : AdjVectorBQM_copy (as_source s) = Some s.
Proof.
  unfold AdjVectorBQM_copy. simpl. unfold num_variables. rewrite resize_nil.
  destruct (for_each_total
    (λ i a, length a = length s ∧
       ∀ x, x < length s →
         a !! x = if decide (x < i) then s !! x else Some ([], bzero))
    (copy_variable (as_source s)) (length s) 0
    (replicate (length s) ([], bzero))) as (a & Hrun & Hlen & Ha).
  - rewrite length_replicate. split; [done|]. intros x Hx.
    rewrite decide_False by lia. by apply lookup_replicate_2.
  - intros i a Hi [Hlen Ha].
    destruct (lookup_lt_is_Some_2 s i) as [r Hr]; [lia|].
    exists (<[i := r]> a). split.
    + apply copy_variable_spec; [done|].
      rewrite Ha by lia. by rewrite decide_False by lia.
    + rewrite length_insert. split; [done|]. intros x Hx.
      destruct (decide (x = i)) as [->|Hne].
      * rewrite list_lookup_insert_eq by lia. by rewrite decide_True by lia.
      * rewrite list_lookup_insert_ne by done. rewrite Ha by done.
        repeat case_decide; try done; lia.
  - rewrite Hrun. f_equal. apply list_eq. intros x.
    destruct (decide (x < length s)) as [Hx|Hx].
    + rewrite Ha by done. by rewrite decide_True by lia.
    + by rewrite !lookup_ge_None_2 by lia.
Qed.

(* =============================================================== *)
(** ** Reachable states are valid *)

Lemma default_valid : valid AdjVectorBQM_default.
Proof.
  unfold AdjVectorBQM_default. split.
  - intros u r Hr. by rewrite lookup_nil in Hr.
  - intros u c (r & Hr & _). by rewrite lookup_nil in Hr.
  - intros u w c (r & Hr & _). by rewrite lookup_nil in Hr.
Qed.

Lemma reachable_valid (s : bqm) : reachable s → valid s.
Proof.
  induction 1 as [|s s' _ IH Hcopy|dense n ign s Hd|s _ IH|s s' r _ IH Hpop
                  |s u v s' r _ IH Hrem|s v b s' _ IH Hset
                  |s u v b s' r _ IH Hset].
  - apply default_valid.
  - rewrite copy_as_source in Hcopy. by injection Hcopy as <-.
  - by eapply dense_valid.
  - by apply add_variable_valid.
  - by eapply pop_variable_valid.
  - by eapply remove_interaction_valid.
  - by eapply set_linear_valid.
  - by eapply set_quadratic_valid.
Qed.

(** Every edge is stored twice, so the entries of a valid state come in
    pairs: pop the variables one after the other and count. *)
Lemma valid_count_even (adj : bqm) :
  valid adj → ∃ k, count_entries adj 0 = 2 * k.
Proof.
  remember (length adj) as n eqn:Hn. revert adj Hn.
  induction n as [|n IH]; intros adj Hn Hval.
  - destruct adj; [|done]. by exists 0.
  - destruct (pop_variable_spec adj Hval) as
      (adj' & rv & Hpop & _ & Hlen & _ & _ & _ & Hcnt); [lia|].
    destruct (IH adj') as [k Hk]; [lia|by eapply pop_variable_valid|].
    exists (k + length rv.1). lia.
Qed.

Lemma get_quadratic_ext (a a' : bqm) x y :
  rows_sorted a → rows_sorted a' → length a' = length a →
  (∀ c, stored a' x y c ↔ stored a x y c) →
  get_quadratic a' x y = get_quadratic a x y.
Proof.
  intros Hs Hs' Hlen Hst.
  destruct (decide (x < length a ∧ y < length a ∧ x ≠ y)) as [(Hx & Hy & Hxy)|Hn].
  - destruct (get_quadratic_total a x y) as [(c & Hc & ->)|[Hno ->]]; try done.
    + apply get_quadratic_present; try done; try lia. by apply Hst.
    + apply get_quadratic_absent; try done; try lia.
      intros c Hc%Hst. by eapply Hno.
  - unfold get_quadratic. rewrite Hlen. by rewrite !decide_False by done.
Qed.

Lemma num_interactions_count (a a' : bqm) k :
  count_entries a' 0 = count_entries a 0 + 2 * k →
  num_interactions a' = num_interactions a + k.
Proof.
  unfold num_interactions. intros ->.
  rewrite (Nat.mul_comm 2 k), Nat.div_add by lia. done.
Qed.

Lemma stored_get_quadratic (s : bqm) u v c :
  valid s → stored s u v c → get_quadratic s u v = Some (c, true).
Proof.
  intros [Hs Hn Hsym] Hst. apply get_quadratic_present; try done.
  - by eapply stored_lt.
  - apply Hsym in Hst. by eapply stored_lt.
  - intros ->. by eapply Hn.
Qed.

Lemma get_linear_fmap (s : bqm) i : get_linear s i = s.*2 !! i.
Proof.
  unfold get_linear. rewrite list_lookup_fmap. by destruct (s !! i).
Qed.

(** The edges of a densely constructed model: the pair [u < v] is an
    edge exactly when the sum of its two array entries is not zero. *)
Lemma dense_get_quadratic (dense : list B) n ign (d : bqm) u v qa qb :
  AdjVectorBQM_dense dense n ign = Some d → u < v < n →
  dense !! (u * n + v) = Some qa → dense !! (v * n + u) = Some qb →
  get_quadratic d u v =
    (if bne (badd qa qb) bzero then Some (badd qa qb, true)
     else Some (bzero, false)) ∧
  get_quadratic d v u =
    (if bne (badd qa qb) bzero then Some (badd qa qb, true)
     else Some (bzero, false)).
Proof.
  intros Hd Huv Ha Hb.
  pose proof (dense_valid _ _ _ _ Hd) as Hval.
  destruct (dense_spec _ _ _ _ Hd) as (lin & (Hlen & _ & Hs & Hst) & _).
  destruct (dense_bias_lt dense n u v qa qb) as [Huv' Hvu']; [lia|done..|].
  destruct (bne (badd qa qb) bzero) eqn:Hq.
  - split; apply stored_get_quadratic; try done; apply Hst;
      (split_and!; [lia|lia|lia|lia|done|done]).
  - split; apply get_quadratic_absent; try done; try lia;
      intros c (_ & _ & _ & _ & Hc & Hne)%Hst; congruence.
Qed.

(* =============================================================== *)
(** ** The properties of the specification *)

(** C1, symmetry invariant.  In every state reachable from a constructor
    by calls of the mutating member functions, [get_quadratic(u, v)] and
    [get_quadratic(v, u)] return the same pair [(bias, found)] for all
    distinct variables [u] and [v]. *)
Theorem symmetry_invariant (s : bqm) u v :
  reachable s → u < num_variables s → v < num_variables s → u ≠ v →
  ∃ b found,
    get_quadratic s u v = Some (b, found) ∧
    get_quadratic s v u = Some (b, found).
Proof.
  intros Hval%reachable_valid Hu Hv Huv. pose proof Hval as [Hs Hn Hsym].
  unfold num_variables in *.
  destruct (get_quadratic_total s u v) as [(c & Hc & ->)|[Hno ->]]; try done.
  - exists c, true. split; [done|].
    apply get_quadratic_present; try done. by apply Hsym.
  - exists bzero, false. split; [done|].
    apply get_quadratic_absent; try done.
    intros c Hc%Hsym. by eapply Hno.
Qed.

(** C2, neighborhood well-formedness.  In every reachable state the
    neighborhood of a variable [u] is strictly increasing by neighbor
    index, so it holds no neighbor twice, and it does not hold [u]. *)
Theorem neighborhood_well_formed (s : bqm) u (nb : outvars) :
  reachable s → neighborhood s u = Some nb →
  (∀ i j x y, nb !! i = Some x → nb !! j = Some y → i < j → x.1 < y.1) ∧
  NoDup nb.*1 ∧
  u ∉ nb.*1.
Proof.
  intros [Hs Hn Hsym]%reachable_valid Hnb. unfold neighborhood in Hnb.
  case_decide; [|done].
  destruct (s !! u) as [r|] eqn:Hr; [|done]. injection Hnb as <-.
  pose proof (Hs _ _ Hr) as Hsr. split_and!.
  - intros i j x y. by apply nb_sorted_lookup_lt.
  - by apply nb_sorted_NoDup.
  - intros ([w c] & Hw & Hin)%list_elem_of_fmap. simpl in Hw. subst w.
    eapply Hn. by exists r.
Qed.

(** C3, [set_quadratic] postcondition.  In a valid state, for distinct
    valid indices, [set_quadratic(u, v, b)] returns [true]; afterwards
    both [get_quadratic(u, v)] and [get_quadratic(v, u)] return
    [(b, true)]; [num_interactions()] is unchanged when the edge existed
    and one greater when it was absent; every other edge, every linear
    bias and [num_variables()] are unchanged.  A second call with the
    same [b] leaves [num_interactions()] and [get_quadratic(u, v)] as
    they are. *)
Theorem set_quadratic_postcondition (s : bqm) u v b :
  valid s → u < num_variables s → v < num_variables s → u ≠ v →
  ∃ s',
    set_quadratic s u v b = Some (s', true) ∧
    get_quadratic s' u v = Some (b, true) ∧
    get_quadratic s' v u = Some (b, true) ∧
    (∀ c found, get_quadratic s u v = Some (c, found) →
       num_interactions s' =
         if found then num_interactions s else num_interactions s + 1) ∧
    (∀ x y, ¬ same_edge u v x y →
       get_quadratic s' x y = get_quadratic s x y) ∧
    (∀ x, get_linear s' x = get_linear s x) ∧
    num_variables s' = num_variables s ∧
    ∃ s'',
      set_quadratic s' u v b = Some (s'', true) ∧
      num_interactions s'' = num_interactions s' ∧
      get_quadratic s'' u v = Some (b, true).
Proof.
  intros Hval Hu Hv Huv. unfold num_variables in *.
  destruct (set_quadratic_spec s u v b Hval Hu Hv Huv)
    as (s' & Hset & Hlen & Hs' & Hlin & Hst & Hcnt).
  pose proof (set_quadratic_valid _ _ _ _ _ _ Hval Hset) as Hval'.
  assert (stored s' u v b) as Huvb.
  { apply Hst. left. split; [|done]. by left. }
  exists s'. split_and!; try done.
  - by apply stored_get_quadratic.
  - apply stored_get_quadratic; [done|]. by apply Hval'.
  - intros c found Hget.
    destruct Hcnt as [[[c0 Hc0] Hcnt]|[Hno Hcnt]].
    + rewrite (stored_get_quadratic s u v c0) in Hget by done.
      injection Hget as <- <-.
      rewrite (num_interactions_count s s' 0); lia.
    + rewrite (get_quadratic_absent s u v) in Hget by (done || apply Hval).
      injection Hget as <- <-.
      by rewrite (num_interactions_count s s' 1).
  - intros x y Hne. apply get_quadratic_ext; try done; [apply Hval|].
    intros c. rewrite Hst. ptauto.
  - destruct (set_quadratic_spec s' u v b Hval')
      as (s'' & Hset' & Hlen' & Hs'' & Hlin' & Hst' & Hcnt'); try lia.
    pose proof (set_quadratic_valid _ _ _ _ _ _ Hval' Hset') as Hval''.
    exists s''. split_and!; [done| |].
    + destruct Hcnt' as [[_ Hcnt']|[Hno _]]; [|by destruct (Hno b)].
      rewrite (num_interactions_count s' s'' 0); lia.
    + apply stored_get_quadratic; [done|].
      apply Hst'. left. split; [|done]. by left.
Qed.

(** C4, dense-construction round trip.  For an [n * n] row-major array
    [M] that is symmetric off the diagonal, construction with
    [ignore_diagonal = false] returns a model with [n] variables, with
    [get_linear(i) = M[i][i]], and with [get_quadratic(i, j)] equal to
    [(M[i][j] + M[j][i], true)] when that sum is not zero and to
    [(0, false)] when it is. *)
Theorem dense_round_trip (dense : list B) n :
  length dense = n * n →
  (∀ i j, i < n → j < n → dense !! (i * n + j) = dense !! (j * n + i)) →
  ∃ s,
    AdjVectorBQM_dense dense n false = Some s ∧
    num_variables s = n ∧
    (∀ i L, i < n → dense !! (i * n + i) = Some L →
       get_linear s i = Some L) ∧
    (∀ i j a b, i < n → j < n → i ≠ j →
       dense !! (i * n + j) = Some a → dense !! (j * n + i) = Some b →
       get_quadratic s i j =
         if bne (badd a b) bzero then Some (badd a b, true)
         else Some (bzero, false)).
Proof.
  intros Hlen Hsym.
  destruct (dense_total dense n false) as [s Hs]; [lia|].
  destruct (dense_spec _ _ _ _ Hs) as (lin & (Hl & Hlin & _) & _ & Hdiag).
  exists s. split_and!; [done..| |].
  - intros i L Hi HL. rewrite get_linear_fmap, Hlin, Hdiag by done.
    by replace (i * (n + 1)) with (i * n + i) by lia.
  - intros i j a b Hi Hj Hij Ha Hb.
    assert (a = b) as <-.
    { specialize (Hsym i j Hi Hj). congruence. }
    destruct (decide (i < j)).
    + by destruct (dense_get_quadratic dense n false s i j a a) as [-> _].
    + by destruct (dense_get_quadratic dense n false s j i a a) as [_ ->];
        try done; lia.
Qed.

(** C5, [pop_variable] postcondition.  In a valid state with [n ≥ 1]
    variables [pop_variable()] removes the variable [n - 1]: it returns
    the new [num_variables()], which is [n - 1]; no remaining
    neighborhood names [n - 1]; the remaining linear biases and the edges
    between remaining variables are as before.  On the empty model the
    precondition fails. *)
Theorem pop_variable_postcondition (s : bqm) :
  valid s →
  (0 < num_variables s →
   ∃ s',
     pop_variable s = Some (s', num_variables s - 1) ∧
     num_variables s' = num_variables s - 1 ∧
     (∀ x nb, neighborhood s' x = Some nb →
        num_variables s - 1 ∉ nb.*1) ∧
     (∀ x, x < num_variables s - 1 → get_linear s' x = get_linear s x) ∧
     (∀ x y, x < num_variables s - 1 → y < num_variables s - 1 →
        get_quadratic s' x y = get_quadratic s x y)) ∧
  (num_variables s = 0 → pop_variable s = None).
Proof.
  intros Hval. unfold num_variables. split.
  - intros Hpos.
    destruct (pop_variable_spec s Hval Hpos)
      as (s' & rv & Hpop & Hrv & Hlen & Hs' & Hlin & Hst & _).
    exists s'. split_and!; try done.
    + intros x nb Hnb. unfold neighborhood in Hnb. case_decide; [|done].
      destruct (s' !! x) as [r|] eqn:Hr; [|done]. injection Hnb as <-.
      intros ([w c] & Hw & Hin)%list_elem_of_fmap. simpl in Hw. subst w.
      assert (stored s' x (length s - 1) c) as Hx by (by exists r).
      apply Hst in Hx. lia.
    + intros x y Hx Hy.
      destruct (decide (x = y)) as [->|Hxy].
      { unfold get_quadratic. rewrite !decide_False; [done|lia..]. }
      pose proof Hval as [Hs Hn Hsym].
      destruct (get_quadratic_total s x y) as [(c & Hc & ->)|[Hno ->]];
        try done; try lia.
      * apply get_quadratic_present; try done; try lia.
        apply Hst. split_and!; [lia|lia|done].
      * apply get_quadratic_absent; try done; try lia.
        intros c (_ & _ & Hc)%Hst. by eapply Hno.
  - intros H0. unfold pop_variable. rewrite decide_False; [done|lia].
Qed.

(** C6, [remove_interaction].  In a valid state, for distinct valid
    indices, [remove_interaction(u, v)] returns [true] exactly when the
    edge existed.  Then both copies are gone, [num_interactions()] is one
    less, and nothing else has changed.  When it returns [false] the
    state is the one before the call. *)
Theorem remove_interaction_atomic (s : bqm) u v :
  valid s → u < num_variables s → v < num_variables s → u ≠ v →
  ∃ s' r,
    remove_interaction s u v = Some (s', r) ∧
    (r = true ↔ ∃ c, get_quadratic s u v = Some (c, true)) ∧
    (r = true →
       get_quadratic s' u v = Some (bzero, false) ∧
       get_quadratic s' v u = Some (bzero, false) ∧
       num_interactions s' + 1 = num_interactions s ∧
       num_variables s' = num_variables s ∧
       (∀ x, get_linear s' x = get_linear s x) ∧
       (∀ x y, ¬ same_edge u v x y →
          get_quadratic s' x y = get_quadratic s x y)) ∧
    (r = false → s' = s).
Proof.
  intros Hval Hu Hv Huv. unfold num_variables in *.
  pose proof Hval as [Hs Hn Hsym].
  destruct (remove_interaction_spec s u v Hval Hu Hv)
    as [([c0 Hc0] & s' & Hrem & Hlen & Hs' & Hlin & Hst & Hcnt)|[Hno Hrem]].
  - exists s', true. split_and!; try done.
    + split; [|done]. intros _. exists c0. by apply stored_get_quadratic.
    + intros _. split_and!; try done.
      * apply get_quadratic_absent; try done; try lia.
        intros c [Hne _]%Hst. apply Hne. by left.
      * apply get_quadratic_absent; try done; try lia.
        intros c [Hne _]%Hst. apply Hne. by right.
      * symmetry. apply (num_interactions_count s' s 1). lia.
      * intros x y Hne. apply get_quadratic_ext; try done.
        intros c. rewrite Hst. ptauto.
  - exists s, false. split_and!; try done.
    split; [done|]. intros [c Hc].
    apply get_quadratic_stored in Hc; try done. by destruct (Hno c).
Qed.

(** C7, [get_quadratic] result.  In a valid state, for distinct valid
    indices, [get_quadratic(u, v)] returns [(b, true)] exactly when [b]
    is the bias stored for the edge, in either copy, and [(0, false)]
    exactly when no such edge is stored; it returns one of the two.  The
    member function is [const]: it yields the result and no new state. *)
Theorem get_quadratic_semantics (s : bqm) u v :
  valid s → u < num_variables s → v < num_variables s → u ≠ v →
  (∀ b, stored s u v b ∨ stored s v u b ↔
        get_quadratic s u v = Some (b, true)) ∧
  ((∀ b, ¬ stored s u v b ∧ ¬ stored s v u b) ↔
   get_quadratic s u v = Some (bzero, false)) ∧
  ((∃ b, get_quadratic s u v = Some (b, true)) ∨
   get_quadratic s u v = Some (bzero, false)).
Proof.
  intros Hval Hu Hv Huv. unfold num_variables in *.
  pose proof Hval as [Hs Hn Hsym]. split_and!.
  - intros b. rewrite get_quadratic_stored by done. split; [|ptauto].
    intros [H|H]; [done|by apply Hsym].
  - split.
    + intros Hno. apply get_quadratic_absent; try done.
      intros c Hc. by destruct (Hno c).
    + intros Hget b.
      assert (¬ stored s u v b) as Hnot.
      { intros Hst. apply stored_get_quadratic in Hst; [|done]. congruence. }
      split; [done|]. intros Hst. by apply Hnot, Hsym.
  - destruct (get_quadratic_total s u v) as [(c & _ & Hc)|[_ Hc]]; eauto.
Qed.

(** C8, degree/interaction consistency.  In every reachable state
    [num_interactions() * 2] is the sum of [degree(v)] over all
    variables; the halving in [num_interactions] loses nothing. *)
Theorem degree_interaction_consistency (s : bqm) :
  reachable s → num_interactions s * 2 = total_degree s.
Proof.
  intros Hval%reachable_valid.
  destruct (valid_count_even s Hval) as [k Hk].
  rewrite total_degree_count. unfold num_interactions. rewrite Hk.
  rewrite (Nat.mul_comm 2 k), Nat.div_mul by lia. lia.
Qed.

(** C9, add/pop round trip.  [add_variable()] appends a variable with an
    empty neighborhood and returns its index; [pop_variable()] right
    after it gives back the state before the two calls, so
    [num_variables()] and the linear bias, degree and neighborhood of
    every variable are what they were. *)
Theorem add_pop_round_trip (s : bqm) :
  (add_variable s).2 = num_variables s ∧
  neighborhood (add_variable s).1 (num_variables s) = Some [] ∧
  ∃ s',
    pop_variable (add_variable s).1 = Some (s', num_variables s) ∧
    s' = s ∧
    num_variables s' = num_variables s ∧
    ∀ v, get_linear s' v = get_linear s v ∧
         degree s' v = degree s v ∧
         neighborhood s' v = neighborhood s v.
Proof.
  rewrite add_variable_eq. unfold num_variables. simpl. split_and!.
  - done.
  - unfold neighborhood. rewrite length_app. simpl.
    rewrite decide_True by lia. by rewrite list_lookup_middle.
  - exists s. split_and!; try done.
    unfold pop_variable. rewrite length_app. simpl.
    rewrite decide_True by lia.
    replace (length s + 1 - 1) with (length s) by lia.
    rewrite list_lookup_middle by done. simpl.
    rewrite length_app. simpl.
    replace (length s + 1 - 1) with (length s) by lia.
    by rewrite take_app_length.
Qed.

(** C10, zero-bias edges.  In a valid state without the edge [{u, v}],
    [set_quadratic(u, v, 0)] creates it: both lookups then return
    [(0, true)] and [num_interactions()] is one greater.  The dense
    constructor, for its part, creates no edge for a pair whose two
    array entries sum to zero. *)
Theorem zero_bias_edge_stored (s : bqm) u v :
  valid s → u < num_variables s → v < num_variables s → u ≠ v →
  get_quadratic s u v = Some (bzero, false) →
  (∃ s',
     set_quadratic s u v bzero = Some (s', true) ∧
     get_quadratic s' u v = Some (bzero, true) ∧
     get_quadratic s' v u = Some (bzero, true) ∧
     num_interactions s' = num_interactions s + 1) ∧
  (∀ dense n ignore_diagonal d i j a b,
     AdjVectorBQM_dense dense n ignore_diagonal = Some d →
     i < j < n →
     dense !! (i * n + j) = Some a → dense !! (j * n + i) = Some b →
     bne (badd a b) bzero = false →
     get_quadratic d i j = Some (bzero, false) ∧
     get_quadratic d j i = Some (bzero, false)).
Proof.
  intros Hval Hu Hv Huv Hget. unfold num_variables in *. split.
  - destruct (set_quadratic_spec s u v bzero Hval Hu Hv Huv)
      as (s' & Hset & Hlen & Hs' & Hlin & Hst & Hcnt).
    pose proof (set_quadratic_valid _ _ _ _ _ _ Hval Hset) as Hval'.
    assert (stored s' u v bzero) as Huvb.
    { apply Hst. left. split; [|done]. by left. }
    exists s'. split_and!; try done.
    + by apply stored_get_quadratic.
    + apply stored_get_quadratic; [done|]. by apply Hval'.
    + destruct Hcnt as [[[c0 Hc0] _]|[_ Hcnt]].
      * apply stored_get_quadratic in Hc0; [|done]. congruence.
      * by apply (num_interactions_count s s' 1).
  - intros dense n ign d i j a b Hd Hij Ha Hb Hzero.
    destruct (dense_get_quadratic dense n ign d i j a b) as [H1 H2];
      try done.
    by rewrite Hzero in H1, H2.
Qed.

(* =============================================================== *)
(** ** Further properties of the member functions *)

Lemma lower_bound_loop_range fuel : ∀ (l : outvars) first count v,
  first ≤ lower_bound_loop fuel l first count v ≤ first + count.
Proof.
  induction fuel as [|fuel IH]; intros l first count v;
    cbn [lower_bound_loop]; [lia|].
  destruct (decide (count = 0)) as [->|Hc]; [lia|].
  assert (count / 2 < count) by (apply Nat.div_lt; lia).
  destruct (l !! (first + count / 2)) as [e|]; [|lia].
  destruct (comp_v e v).
  - specialize (IH l (S (first + count / 2)) (count - (count / 2 + 1)) v). lia.
  - specialize (IH l first (count / 2) v). lia.
Qed.

Lemma filter_Forall_all (P : nat * B → Prop) `{∀ x, Decision (P x)}
    (l : outvars) :
  Forall P l → filter P l = l.
Proof.
  induction 1 as [|x l Hx Hl IH]; [done|].
  by rewrite filter_cons_True, IH.
Qed.

Lemma filter_Forall_none (P : nat * B → Prop) `{∀ x, Decision (P x)}
    (l : outvars) :
  Forall (λ x, ¬ P x) l → filter P l = [].
Proof.
  induction 1 as [|x l Hx Hl IH]; [done|].
  by rewrite filter_cons_False.
Qed.

(** Two sorted neighborhoods with the same entries are the same list. *)
Lemma nb_sorted_ext (l1 l2 : outvars) :
  nb_sorted l1 → nb_sorted l2 → (∀ e, e ∈ l1 ↔ e ∈ l2) → l1 = l2.
Proof.
  intros H1 H2 Hmem.
  apply (StronglySorted_unique_strong key_lt); try done.
  - unfold key_lt. intros x1 x2 _ _ ? ?. lia.
  - apply NoDup_Permutation; try done.
    + eapply NoDup_fmap_1. by apply nb_sorted_NoDup.
    + eapply NoDup_fmap_1. by apply nb_sorted_NoDup.
Qed.

(** Two states with sorted neighborhoods, the same number of variables,
    the same linear biases and the same stored entries are equal. *)
Lemma state_ext (s1 s2 : bqm) :
  rows_sorted s1 → rows_sorted s2 → length s1 = length s2 →
  (∀ x, get_linear s1 x = get_linear s2 x) →
  (∀ x y c, stored s1 x y c ↔ stored s2 x y c) →
  s1 = s2.
Proof.
  intros Hs1 Hs2 Hlen Hlin Hst. apply list_eq. intros x.
  destruct (s1 !! x) as [r1|] eqn:Hr1.
  - destruct (lookup_lt_is_Some_2 s2 x) as [r2 Hr2].
    { rewrite <- Hlen. by eapply lookup_lt_Some. }
    rewrite Hr2. f_equal.
    specialize (Hlin x). unfold get_linear in Hlin.
    rewrite Hr1, Hr2 in Hlin. simpl in Hlin.
    assert (r1.1 = r2.1) as Hfst.
    { apply nb_sorted_ext; [by eapply Hs1|by eapply Hs2|].
      intros [y c]. rewrite <- (stored_lookup s1 x y c r1 Hr1).
      rewrite <- (stored_lookup s2 x y c r2 Hr2). apply Hst. }
    destruct r1, r2. simpl in *. congruence.
  - symmetry. apply lookup_ge_None. rewrite <- Hlen.
    by apply lookup_ge_None.
Qed.

(** X1.  Whatever the sequence, sorted or not, the position returned by
    the binary search lies within it, [end()] included. *)
Theorem lower_bound_in_range (l : outvars) v :
  lower_bound l v ≤ length l.
Proof.
  unfold lower_bound.
  pose proof (lower_bound_loop_range (length l) l 0 (length l) v). lia.
Qed.

(** X2.  On a sorted neighborhood the binary search returns the number of
    entries whose neighbor index is smaller than [v]: the position of the
    first entry that is not smaller, or [end()]. *)
Theorem lower_bound_sorted (l : outvars) v :
  nb_sorted l →
  lower_bound l v = length (filter (λ e, e.1 < v) l) ∧
  (∀ i e, l !! i = Some e → i < lower_bound l v ↔ e.1 < v).
Proof.
  intros Hs. split.
  - destruct (lower_bound_split l v Hs) as (l1 & l2 & -> & -> & Hlo & Hhi).
    rewrite filter_app, filter_Forall_all by done.
    rewrite filter_Forall_none; [by rewrite app_nil_r|].
    eapply Forall_impl; [exact Hhi|]. simpl. intros; lia.
  - destruct (lower_bound_spec l v Hs) as (_ & Hlo & Hhi).
    intros i e He. split; [by apply Hlo|].
    intros Hlt. destruct (decide (i < lower_bound l v)) as [|Hge]; [done|].
    specialize (Hhi i e He). lia.
Qed.

(** X3.  The representation is canonical: two valid states with the same
    number of variables that answer [get_linear] and [get_quadratic] alike
    are the same state. *)
Theorem valid_state_canonical (s1 s2 : bqm) :
  valid s1 → valid s2 →
  num_variables s1 = num_variables s2 →
  (∀ v, get_linear s1 v = get_linear s2 v) →
  (∀ u v, get_quadratic s1 u v = get_quadratic s2 u v) →
  s1 = s2.
Proof.
  intros Hv1 Hv2 Hlen Hlin Hq. unfold num_variables in Hlen.
  assert (∀ a b : bqm, valid a → valid b → length a = length b →
            (∀ u v, get_quadratic a u v = get_quadratic b u v) →
            ∀ x y c, stored a x y c → stored b x y c) as Hone.
  { intros a b Ha Hb Hab Hget x y c Hst.
    pose proof (stored_get_quadratic a x y c Ha Hst) as Hg.
    rewrite Hget in Hg. pose proof Ha as [Hsa Hna Hsyma].
    assert (x < length a) by (by eapply stored_lt).
    assert (y < length a) by (apply Hsyma in Hst; by eapply stored_lt).
    assert (x ≠ y) by (intros ->; by eapply Hna).
    apply get_quadratic_stored in Hg; try done; try lia. apply Hb. }
  apply state_ext; try done; try apply Hv1; try apply Hv2.
  intros x y c. split; apply Hone; try done.
Qed.

Lemma neighborhood_fmap (s : bqm) x : neighborhood s x = s.*1 !! x.
Proof.
  unfold neighborhood. rewrite list_lookup_fmap. case_decide.
  - by destruct (s !! x).
  - by rewrite lookup_ge_None_2 by lia.
Qed.

Lemma degree_fmap (s : bqm) x : degree s x = length <$> s.*1 !! x.
Proof. unfold degree. rewrite list_lookup_fmap. by destruct (s !! x). Qed.

Lemma count_entries_fmap (s s' : bqm) :
  s'.*1 = s.*1 → count_entries s' 0 = count_entries s 0.
Proof.
  revert s'. induction s as [|r s IH]; intros [|r' s'] Heq; try done.
  injection Heq as Hr Hs. rewrite !count_entries_cons, Hr. f_equal. by apply IH.
Qed.

(** The quadratic queries read the neighborhoods and nothing else. *)
Lemma get_quadratic_neighborhood (s s' : bqm) x y :
  length s' = length s → neighborhood s' x = neighborhood s x →
  get_quadratic s' x y = get_quadratic s x y.
Proof. intros Hlen Hnb. unfold get_quadratic. by rewrite Hlen, Hnb. Qed.

Lemma copy_variable_gen (src : bqm_source) (a : bqm) v l (nb : outvars) b0 :
  src_get_linear src v = Some l → src_neighborhood src v = Some nb →
  a !! v = Some ([], b0) →
  copy_variable src v a = Some (<[v := (nb, l)]> a).
Proof.
  intros Hl Hnb Ha. pose proof (lookup_lt_Some _ _ _ Ha) as Hlt.
  unfold copy_variable, set_linear. rewrite Hl. simpl.
  rewrite decide_True by done. rewrite Ha. simpl. rewrite Hnb. simpl.
  rewrite list_lookup_insert_eq by done. simpl.
  by rewrite list_insert_insert_eq, app_nil_r.
Qed.

Lemma copy_variable_reads (src : bqm_source) (a a' : bqm) v :
  copy_variable src v a = Some a' →
  is_Some (src_get_linear src v) ∧ is_Some (src_neighborhood src v).
Proof.
  unfold copy_variable. intros Hrun.
  destruct (src_get_linear src v) as [l|]; [|done]. simpl in Hrun.
  destruct (set_linear a v l) as [a1|]; [|done]. simpl in Hrun.
  destruct (src_neighborhood src v) as [nb|]; [|done]. eauto.
Qed.

(** A loop that returns has run its body, with a result, at every index. *)
Lemma for_each_bodies body (idxs : list nat) : ∀ adj adj' : bqm,
  for_each idxs body adj = Some adj' →
  ∀ i, i ∈ idxs → ∃ a a', body i a = Some a'.
Proof.
  induction idxs as [|j idxs IH]; intros adj adj' Hrun i Hi.
  - by apply elem_of_nil in Hi.
  - simpl in Hrun. destruct (body j adj) as [adj1|] eqn:Hb; [|done].
    simpl in Hrun. apply elem_of_cons in Hi as [->|Hi]; [eauto|].
    by eapply IH.
Qed.

(** X4.  The copying constructor returns exactly when its argument
    answers [get_linear] and [neighborhood] for every variable below its
    [num_variables()]; the copy then has that many variables and gives
    the same linear bias and the same neighborhood for each of them. *)
Theorem copy_constructor_faithful (src : bqm_source) :
  (is_Some (AdjVectorBQM_copy src) ↔
   ∀ v, v < src_num_variables src →
     is_Some (src_get_linear src v) ∧ is_Some (src_neighborhood src v)) ∧
  (∀ s, AdjVectorBQM_copy src = Some s →
     num_variables s = src_num_variables src ∧
     ∀ v, v < src_num_variables src →
       get_linear s v = src_get_linear src v ∧
       neighborhood s v = src_neighborhood src v).
Proof.
  unfold AdjVectorBQM_copy. rewrite resize_nil.
  set (n := src_num_variables src).
  set (P := λ (i : nat) (a : bqm), length a = n ∧
    ∀ x, x < n → if decide (x < i)
      then get_linear a x = src_get_linear src x ∧
           neighborhood a x = src_neighborhood src x
      else a !! x = Some ([], bzero)).
  assert (P 0 (replicate n ([], bzero))) as HP0.
  { split; [by rewrite length_replicate|]. intros x Hx.
    rewrite decide_False by lia. by apply lookup_replicate_2. }
  assert (∀ i a l nb, i < n → P i a →
            src_get_linear src i = Some l → src_neighborhood src i = Some nb →
            copy_variable src i a = Some (<[i := (nb, l)]> a) ∧
            P (S i) (<[i := (nb, l)]> a)) as Hstep.
  { intros i a l nb Hi [Hlen Ha] Hl Hnb.
    pose proof (Ha i Hi) as Hai. rewrite decide_False in Hai by lia.
    split; [by eapply copy_variable_gen|].
    split; [by rewrite length_insert|]. intros x Hx.
    destruct (decide (x = i)) as [->|Hne].
    - rewrite decide_True by lia. unfold get_linear, neighborhood.
      rewrite length_insert, decide_True by lia.
      rewrite list_lookup_insert_eq by lia. simpl. by rewrite Hl, Hnb.
    - specialize (Ha x Hx). unfold get_linear, neighborhood in *.
      rewrite length_insert. rewrite list_lookup_insert_ne by done.
      repeat case_decide; try done; lia. }
  split; [split|].
  - intros [s Hs] v Hv.
    destruct (for_each_bodies _ _ _ _ Hs v) as (a & a' & Hb).
    { apply elem_of_seq. lia. }
    by eapply copy_variable_reads.
  - intros Hsrc.
    destruct (for_each_total P (copy_variable src) n 0
      (replicate n ([], bzero)) HP0) as (s & -> & _); [|done].
    intros i a Hi HPa. destruct (Hsrc i) as [[l Hl] [nb Hnb]]; [lia|].
    exists (<[i := (nb, l)]> a). apply Hstep; try done. lia.
  - intros s Hs.
    apply (for_each_partial P) in Hs; [| done |].
    + destruct Hs as [Hlen Hs]. split; [done|]. intros v Hv.
      specialize (Hs v Hv). by rewrite decide_True in Hs by lia.
    + intros i a a' Hi HPa Hb.
      destruct (copy_variable_reads _ _ _ _ Hb) as [[l Hl] [nb Hnb]].
      destruct (Hstep i a l nb) as [Heq HP']; try done; [lia|].
      rewrite Hb in Heq. by injection Heq as ->.
Qed.

(** X5.  Copying an [AdjVectorBQM], in whatever state, valid or not,
    yields an equal [AdjVectorBQM]. *)
Theorem copy_constructor_equal (s : bqm) :
  AdjVectorBQM_copy (as_source s) = Some s.
Proof. apply copy_as_source. Qed.

(** X6.  [set_linear(v, b)] on a variable of the model writes its linear
    bias and nothing else: the other linear biases, every neighborhood
    and degree, every quadratic query and both counts are as before.  On
    an index that is no variable the assertion fails. *)
Theorem set_linear_postcondition (s : bqm) v b :
  (v < num_variables s →
   ∃ s',
     set_linear s v b = Some s' ∧
     get_linear s' v = Some b ∧
     (∀ x, x ≠ v → get_linear s' x = get_linear s x) ∧
     (∀ x, neighborhood s' x = neighborhood s x) ∧
     (∀ x, degree s' x = degree s x) ∧
     (∀ x y, get_quadratic s' x y = get_quadratic s x y) ∧
     num_variables s' = num_variables s ∧
     num_interactions s' = num_interactions s) ∧
  (num_variables s ≤ v → set_linear s v b = None).
Proof.
  unfold num_variables. split.
  - intros Hv.
    destruct (set_linear_spec s v b Hv) as (s' & Hset & Hlen & Hfst & Hv' & Hx).
    assert (s'.*1 = s.*1) as Hfst' by (by apply list_eq).
    exists s'. split_and!; try done.
    + intros x. by rewrite !neighborhood_fmap, Hfst'.
    + intros x. by rewrite !degree_fmap, Hfst'.
    + intros x y. apply get_quadratic_neighborhood; [done|].
      by rewrite !neighborhood_fmap, Hfst'.
    + unfold num_interactions. by rewrite (count_entries_fmap s s').
  - intros Hv. unfold set_linear. rewrite decide_False; [done|lia].
Qed.

(** X7.  Writes of linear biases compose as assignments do: of two
    writes to one variable the later one stands, writes to two variables
    commute, and writing back the bias just read changes nothing. *)
Theorem set_linear_compose (s : bqm) v w a b :
  (s1 ← set_linear s v a; set_linear s1 v b) = set_linear s v b ∧
  (v ≠ w →
   (s1 ← set_linear s v a; set_linear s1 w b) =
   (s1 ← set_linear s w b; set_linear s1 v a)) ∧
  (get_linear s v = Some a → set_linear s v a = Some s).
Proof.
  unfold set_linear, get_linear. split_and!.
  - destruct (decide (v < length s)) as [Hv|Hv]; [|done].
    destruct (lookup_lt_is_Some_2 s v Hv) as [r Hr]. rewrite Hr. simpl.
    rewrite length_insert, decide_True by done.
    rewrite list_lookup_insert_eq by done. simpl.
    by rewrite list_insert_insert_eq.
  - intros Hvw.
    destruct (decide (v < length s)) as [Hv|Hv];
      destruct (decide (w < length s)) as [Hw|Hw]; try done.
    + destruct (lookup_lt_is_Some_2 s v Hv) as [rv Hrv].
      destruct (lookup_lt_is_Some_2 s w Hw) as [rw Hrw].
      rewrite Hrv, Hrw. simpl. rewrite !length_insert, !decide_True by done.
      rewrite !list_lookup_insert_ne by done. rewrite Hrv, Hrw. simpl.
      by rewrite list_insert_insert_ne.
    + destruct (lookup_lt_is_Some_2 s v Hv) as [rv Hrv]. rewrite Hrv. simpl.
      by rewrite length_insert, decide_False.
    + destruct (lookup_lt_is_Some_2 s w Hw) as [rw Hrw]. rewrite Hrw. simpl.
      by rewrite length_insert, decide_False.
  - intros Hget. destruct (s !! v) as [r|] eqn:Hr; [|done].
    injection Hget as <-. rewrite decide_True by (by eapply lookup_lt_Some).
    simpl. f_equal. apply list_insert_id. by destruct r.
Qed.

(** X8.  [add_variable()] returns the former [num_variables()] as the new
    index and appends one variable with linear bias zero and no
    neighbor: it has no edge to any variable, and what could be asked of
    the model before has the same answer after. *)
Theorem add_variable_postcondition (s : bqm) :
  let s' := (add_variable s).1 in
  let n := num_variables s in
  (add_variable s).2 = n ∧
  num_variables s' = n + 1 ∧
  get_linear s' n = Some bzero ∧
  degree s' n = Some 0 ∧
  (∀ x, x < n → get_quadratic s' n x = Some (bzero, false)) ∧
  (∀ x, x < n →
     get_linear s' x = get_linear s x ∧
     degree s' x = degree s x ∧
     neighborhood s' x = neighborhood s x) ∧
  (∀ x y, x < n → y < n → get_quadratic s' x y = get_quadratic s x y) ∧
  num_interactions s' = num_interactions s.
Proof.
  rewrite add_variable_eq. unfold num_variables. simpl.
  assert (∀ x, x < length s →
            (s ++ [([], bzero)]) !! x = s !! x) as Hold.
  { intros x Hx. by rewrite lookup_app_l. }
  assert ((s ++ [([], bzero)]) !! length s = Some ([], bzero)) as Hnew.
  { by rewrite list_lookup_middle. }
  split_and!; try done.
  - rewrite length_app. simpl. lia.
  - unfold get_linear. by rewrite Hnew.
  - unfold degree. by rewrite Hnew.
  - intros x Hx. unfold get_quadratic, neighborhood.
    rewrite length_app. simpl. rewrite !decide_True by lia.
    by rewrite Hnew.
  - intros x Hx. unfold get_linear, degree, neighborhood.
    rewrite length_app, Hold by done. simpl.
    by rewrite !decide_True by lia.
  - intros x y Hx Hy. unfold get_quadratic, neighborhood.
    rewrite length_app, Hold by done. simpl.
    repeat case_decide; try done; lia.
  - unfold num_interactions.
    rewrite count_entries_app, count_entries_cons. simpl.
    by rewrite Nat.add_0_r.
Qed.

Lemma stored_functional (s : bqm) x y c d :
  rows_sorted s → stored s x y c → stored s x y d → c = d.
Proof.
  intros Hs (r & Hr & Hc) (r' & Hr' & Hd).
  assert (r' = r) as -> by congruence.
  eapply nb_sorted_functional; [by eapply Hs|done..].
Qed.

Lemma same_edge_swap u v x y : same_edge u v x y ↔ same_edge v u x y.
Proof. unfold same_edge. ptauto. Qed.

Lemma get_quadratic_absent_inv (s : bqm) u v :
  valid s → get_quadratic s u v = Some (bzero, false) →
  ∀ x y c, same_edge u v x y → ¬ stored s x y c.
Proof.
  intros Hval Hget x y c Hse Hst.
  assert (stored s u v c) as Huv.
  { destruct Hse as [[-> ->]|[-> ->]]; [done|]. by apply Hval. }
  apply stored_get_quadratic in Huv; [|done]. congruence.
Qed.

(** X9.  [set_quadratic] does not care in which order the two variables
    of the edge are given: [set_quadratic(u, v, b)] and
    [set_quadratic(v, u, b)] have the same result and leave the same
    state. *)
Theorem set_quadratic_argument_order (s : bqm) u v b :
  valid s → set_quadratic s u v b = set_quadratic s v u b.
Proof.
  intros Hval.
  destruct (decide (u < length s ∧ v < length s ∧ u ≠ v)) as [(Hu & Hv & Huv)|Hn].
  - destruct (set_quadratic_spec s u v b Hval Hu Hv Huv)
      as (s1 & -> & Hlen1 & Hs1 & Hlin1 & Hst1 & _).
    destruct (set_quadratic_spec s v u b Hval Hv Hu)
      as (s2 & -> & Hlen2 & Hs2 & Hlin2 & Hst2 & _); [done|].
    do 2 f_equal. apply state_ext; try done; try congruence.
    intros x y c. rewrite Hst1, Hst2, (same_edge_swap u v). done.
  - unfold set_quadratic. rewrite !decide_False; [done| |done].
    intros (? & ? & ?). apply Hn. done.
Qed.

(** X10.  Creating an edge and removing it again gives back the state
    before: on a valid state without the edge [{u, v}],
    [remove_interaction(u, v)] after [set_quadratic(u, v, b)] returns
    [true] and restores the state, entry for entry. *)
Theorem set_then_remove_restores (s : bqm) u v b :
  valid s → u < num_variables s → v < num_variables s → u ≠ v →
  get_quadratic s u v = Some (bzero, false) →
  ∃ s1,
    set_quadratic s u v b = Some (s1, true) ∧
    remove_interaction s1 u v = Some (s, true).
Proof.
  intros Hval Hu Hv Huv Hget. unfold num_variables in *.
  pose proof (get_quadratic_absent_inv s u v Hval Hget) as Habs.
  destruct (set_quadratic_spec s u v b Hval Hu Hv Huv)
    as (s1 & Hset & Hlen1 & Hs1 & Hlin1 & Hst1 & _).
  pose proof (set_quadratic_valid _ _ _ _ _ _ Hval Hset) as Hval1.
  exists s1. split; [done|].
  destruct (remove_interaction_spec s1 u v Hval1)
    as [(_ & s2 & -> & Hlen2 & Hs2 & Hlin2 & Hst2 & _)|[Hno _]]; try lia.
  - do 2 f_equal. apply state_ext; try done; try congruence; [apply Hval|].
    intros x y c. rewrite Hst2, Hst1. split.
    + intros [Hne [[Hse _]|[_ H]]]; [done|done].
    + intros H. split; [intros Hse; by eapply Habs|].
      right. split; [intros Hse; by eapply Habs|done].
  - destruct (Hno b). apply Hst1. left. split; [by left|done].
Qed.

(** X11.  Removing an edge and setting it again to the bias it had gives
    back the state before. *)
Theorem remove_then_set_restores (s : bqm) u v c :
  valid s → u < num_variables s → v < num_variables s → u ≠ v →
  get_quadratic s u v = Some (c, true) →
  ∃ s1,
    remove_interaction s u v = Some (s1, true) ∧
    set_quadratic s1 u v c = Some (s, true).
Proof.
  intros Hval Hu Hv Huv Hget. unfold num_variables in *.
  pose proof Hval as [Hs Hn Hsym].
  apply get_quadratic_stored in Hget; try done.
  destruct (remove_interaction_spec s u v Hval Hu Hv)
    as [(_ & s1 & Hrem & Hlen1 & Hs1 & Hlin1 & Hst1 & _)|[Hno _]];
    [|by destruct (Hno c)].
  pose proof (remove_interaction_valid _ _ _ _ _ Hval Hrem) as Hval1.
  exists s1. split; [done|].
  destruct (set_quadratic_spec s1 u v c Hval1)
    as (s2 & -> & Hlen2 & Hs2 & Hlin2 & Hst2 & _); try lia.
  do 2 f_equal. apply state_ext; try done; try congruence.
  intros x y d. rewrite Hst2, Hst1. split.
  - intros [[Hse ->]|[_ [_ H]]]; [|done].
    destruct Hse as [[-> ->]|[-> ->]]; [done|by apply Hsym].
  - intros H. unfold same_edge.
    destruct (decide ((x = u ∧ y = v) ∨ (x = v ∧ y = u))) as [Hse|Hse].
    + left. split; [done|].
      destruct Hse as [[-> ->]|[-> ->]].
      * exact (stored_functional s u v d c Hs H Hget).
      * apply Hsym in H. exact (stored_functional s u v d c Hs H Hget).
    + right. done.
Qed.

(** X12.  Of two [set_quadratic] calls on one edge the later one stands:
    the state after both is the state the second call alone would have
    produced.  With twice the same bias, the second call changes
    nothing. *)
Theorem set_quadratic_last_write (s : bqm) u v b1 b2 :
  valid s → u < num_variables s → v < num_variables s → u ≠ v →
  ∃ s1 s2,
    set_quadratic s u v b1 = Some (s1, true) ∧
    set_quadratic s1 u v b2 = Some (s2, true) ∧
    set_quadratic s u v b2 = Some (s2, true) ∧
    (b1 = b2 → s2 = s1).
Proof.
  intros Hval Hu Hv Huv. unfold num_variables in *.
  destruct (set_quadratic_spec s u v b1 Hval Hu Hv Huv)
    as (s1 & Hset1 & Hlen1 & Hs1 & Hlin1 & Hst1 & _).
  pose proof (set_quadratic_valid _ _ _ _ _ _ Hval Hset1) as Hval1.
  destruct (set_quadratic_spec s1 u v b2 Hval1)
    as (s2 & Hset2 & Hlen2 & Hs2 & Hlin2 & Hst2 & _); try lia.
  destruct (set_quadratic_spec s u v b2 Hval Hu Hv Huv)
    as (s3 & Hset3 & Hlen3 & Hs3 & Hlin3 & Hst3 & _).
  assert (s3 = s2) as ->.
  { apply state_ext; try done; try congruence.
    intros x y c. rewrite Hst3, Hst2, Hst1. ptauto. }
  exists s1, s2. split_and!; try done.
  intros <-. congruence.
Qed.

(** X13.  [remove_interaction] does not care about the order of its two
    arguments either, and it has no assertion on [u != v]: asked to
    remove an edge from a variable to itself, it finds none, returns
    [false] and leaves the state as it is. *)
Theorem remove_interaction_argument_order (s : bqm) u v :
  valid s →
  remove_interaction s u v = remove_interaction s v u ∧
  (u < num_variables s → remove_interaction s u u = Some (s, false)).
Proof.
  intros Hval. pose proof Hval as [Hs Hn Hsym]. unfold num_variables. split.
  - destruct (decide (u < length s ∧ v < length s)) as [[Hu Hv]|Hne].
    + destruct (remove_interaction_spec s u v Hval Hu Hv)
        as [([c Hc] & s1 & -> & Hlen1 & Hs1 & Hlin1 & Hst1 & _)|[Hno ->]];
      destruct (remove_interaction_spec s v u Hval Hv Hu)
        as [([c' Hc'] & s2 & -> & Hlen2 & Hs2 & Hlin2 & Hst2 & _)|[Hno' ->]].
      * do 2 f_equal. apply state_ext; try done; try congruence.
        intros x y d. by rewrite Hst1, Hst2, (same_edge_swap u v).
      * destruct (Hno' c). by apply Hsym.
      * destruct (Hno c'). by apply Hsym.
      * done.
    + unfold remove_interaction. rewrite !decide_False; [done| |done].
      intros [? ?]. by apply Hne.
  - intros Hu.
    destruct (remove_interaction_spec s u u Hval Hu Hu)
      as [([c Hc] & _)|[_ ->]]; [|done].
    by destruct (Hn u c).
Qed.

(** X14.  [set_quadratic] calls on two different edges commute: either
    order leaves the same state. *)
Theorem set_quadratic_commute (s : bqm) u v b x y c :
  valid s →
  u < num_variables s → v < num_variables s → u ≠ v →
  x < num_variables s → y < num_variables s → x ≠ y →
  ¬ same_edge u v x y →
  ∃ s',
    (p ← set_quadratic s u v b; set_quadratic p.1 x y c) = Some (s', true) ∧
    (p ← set_quadratic s x y c; set_quadratic p.1 u v b) = Some (s', true).
Proof.
  intros Hval Hu Hv Huv Hx Hy Hxy Hdiff. unfold num_variables in *.
  destruct (set_quadratic_spec s u v b Hval Hu Hv Huv)
    as (s1 & Hset1 & Hlen1 & Hs1 & Hlin1 & Hst1 & _).
  pose proof (set_quadratic_valid _ _ _ _ _ _ Hval Hset1) as Hval1.
  destruct (set_quadratic_spec s1 x y c Hval1)
    as (s12 & Hset12 & Hlen12 & Hs12 & Hlin12 & Hst12 & _); try lia.
  destruct (set_quadratic_spec s x y c Hval Hx Hy Hxy)
    as (s2 & Hset2 & Hlen2 & Hs2 & Hlin2 & Hst2 & _).
  pose proof (set_quadratic_valid _ _ _ _ _ _ Hval Hset2) as Hval2.
  destruct (set_quadratic_spec s2 u v b Hval2)
    as (s21 & Hset21 & Hlen21 & Hs21 & Hlin21 & Hst21 & _); try lia.
  exists s12. rewrite Hset1, Hset2. simpl. rewrite Hset12, Hset21.
  split; [done|]. do 2 f_equal.
  apply state_ext; try done; try congruence.
  assert (∀ p q, same_edge u v p q → same_edge x y p q → False) as Hexcl.
  { unfold same_edge in *. intros p q. lia. }
  intros p q d. rewrite Hst21, Hst2, Hst12, Hst1.
  specialize (Hexcl p q). ptauto.
Qed.

(** The flag of [get_quadratic] is the outcome of the search that
    [set_quadratic] and [remove_interaction] start with. *)
Lemma get_quadratic_found (s : bqm) u v ru c f :
  s !! u = Some ru → get_quadratic s u v = Some (c, f) →
  f = found_at ru.1 (lower_bound ru.1 v) v.
Proof.
  intros Hru. unfold get_quadratic, neighborhood, found_at.
  case_decide; [|done]. rewrite decide_True by lia. rewrite Hru. simpl.
  destruct (ru.1 !! lower_bound ru.1 v) as [e|]; [|by intros [= <- <-]].
  case_decide; intros [= <- <-]; symmetry;
    [by apply bool_decide_eq_false|apply bool_decide_eq_true; lia].
Qed.

Lemma degree_insert (s : bqm) u r x :
  u < length s →
  degree (<[u := r]> s) x =
    if decide (x = u) then Some (length r.1) else degree s x.
Proof.
  intros Hu. unfold degree. case_decide as Hx.
  - subst x. by rewrite list_lookup_insert_eq.
  - by rewrite list_lookup_insert_ne.
Qed.

(** X15.  Degrees under [set_quadratic]: when [get_quadratic(u, v)]
    found the edge, every degree is as before; when it did not, the
    degrees of [u] and of [v] grow by one and no other degree changes. *)
Theorem set_quadratic_degree (s s' : bqm) u v b r c f :
  valid s →
  set_quadratic s u v b = Some (s', r) →
  get_quadratic s u v = Some (c, f) →
  ∀ x d, degree s x = Some d →
    degree s' x =
      Some (if decide (x = u ∨ x = v) then (if f then d else S d) else d).
Proof.
  intros Hval Hset Hget x d Hd. pose proof Hval as [Hs Hn Hsym].
  unfold set_quadratic in Hset. case_decide as Hb; [|done].
  destruct Hb as (Hu & Hv & Huv).
  destruct (lookup_lt_is_Some_2 s u Hu) as [ru Hru].
  destruct (lookup_lt_is_Some_2 s v Hv) as [rv Hrv].
  pose proof (found_at_symmetric s u v ru rv Hval Hru Hrv) as Hfs.
  pose proof (get_quadratic_found s u v ru c f Hru Hget) as Hf.
  rewrite Hru in Hset. simpl in Hset. rewrite <- Hf in *.
  assert (degree s u = Some (length ru.1)) as Hdu
    by (unfold degree; by rewrite Hru).
  assert (degree s v = Some (length rv.1)) as Hdv
    by (unfold degree; by rewrite Hrv).
  destruct f.
  - rewrite list_lookup_insert_ne in Hset by done.
    rewrite Hrv in Hset. simpl in Hset.
    rewrite decide_True in Hset by done. injection Hset as <- <-.
    destruct (assign_second_spec ru.1 v b (Hs _ _ Hru) (eq_sym Hf))
      as (_ & Hlu & _).
    destruct (assign_second_spec rv.1 u b (Hs _ _ Hrv) Hfs) as (_ & Hlv & _).
    rewrite !degree_insert by (rewrite ?length_insert; done). simpl.
    repeat case_decide; try lia; congruence.
  - rewrite list_lookup_insert_ne in Hset by done.
    rewrite Hrv in Hset. simpl in Hset.
    rewrite decide_True in Hset by done. injection Hset as <- <-.
    destruct (emplace_spec ru.1 v b (Hs _ _ Hru) (eq_sym Hf)) as (_ & Hlu & _).
    destruct (emplace_spec rv.1 u b (Hs _ _ Hrv) Hfs) as (_ & Hlv & _).
    rewrite !degree_insert by (rewrite ?length_insert; done). simpl.
    repeat case_decide; try lia; congruence.
Qed.

(** X16.  Degrees under [remove_interaction]: when it returns [true] the
    degrees of [u] and of [v] shrink by one and no other degree changes;
    when it returns [false] every degree is as before. *)
Theorem remove_interaction_degree (s s' : bqm) u v r :
  valid s →
  remove_interaction s u v = Some (s', r) →
  ∀ x d, degree s x = Some d →
    degree s' x =
      Some (if decide (x = u ∨ x = v) then (if r then d - 1 else d) else d) ∧
    (r = true → x = u ∨ x = v → 0 < d).
Proof.
  intros Hval Hrem x d Hd. pose proof Hval as [Hs Hn Hsym].
  unfold remove_interaction in Hrem. case_decide as Hb; [|done].
  destruct Hb as (Hu & Hv).
  destruct (lookup_lt_is_Some_2 s u Hu) as [ru Hru].
  destruct (lookup_lt_is_Some_2 s v Hv) as [rv Hrv].
  pose proof (found_at_symmetric s u v ru rv Hval Hru Hrv) as Hfs.
  rewrite Hru in Hrem. simpl in Hrem.
  assert (degree s u = Some (length ru.1)) as Hdu
    by (unfold degree; by rewrite Hru).
  assert (degree s v = Some (length rv.1)) as Hdv
    by (unfold degree; by rewrite Hrv).
  destruct (found_at ru.1 (lower_bound ru.1 v) v) eqn:Hf.
  - assert (u ≠ v) as Huv.
    { intros ->. apply found_at_iff in Hf as [c Hc]; [|by eapply Hs].
      eapply Hn. by exists ru. }
    destruct (erase_spec ru.1 v (Hs _ _ Hru) Hf) as (nu & Heu & _ & Hlu & _).
    destruct (erase_spec rv.1 u (Hs _ _ Hrv) Hfs) as (nv & Hev & _ & Hlv & _).
    rewrite Heu in Hrem. simpl in Hrem.
    rewrite list_lookup_insert_ne in Hrem by done.
    rewrite Hrv in Hrem. simpl in Hrem.
    rewrite decide_True in Hrem by done. rewrite Hev in Hrem.
    injection Hrem as <- <-.
    rewrite !degree_insert by (rewrite ?length_insert; done). simpl.
    split.
    + destruct (decide (x = v)) as [->|Hxv].
      { rewrite Hdv in Hd. injection Hd as <-.
        rewrite decide_True by auto. f_equal. lia. }
      destruct (decide (x = u)) as [->|Hxu].
      { rewrite Hdu in Hd. injection Hd as <-.
        rewrite decide_True by auto. f_equal. lia. }
      rewrite decide_False by lia. done.
    + intros _ [-> | ->]; [rewrite Hdu in Hd|rewrite Hdv in Hd];
        injection Hd as <-; lia.
  - injection Hrem as <- <-. split; [|done]. rewrite Hd.
    by case_decide.
Qed.

(** X17.  [pop_variable()] removes as many interactions as the popped
    variable had neighbors. *)
Theorem pop_variable_interactions (s : bqm) :
  valid s → 0 < num_variables s →
  ∃ s' d,
    pop_variable s = Some (s', num_variables s - 1) ∧
    degree s (num_variables s - 1) = Some d ∧
    num_interactions s' + d = num_interactions s.
Proof.
  intros Hval Hpos. unfold num_variables in *.
  destruct (pop_variable_spec s Hval Hpos)
    as (s' & rv & Hpop & Hrv & _ & _ & _ & _ & Hcnt).
  exists s', (length rv.1). split_and!; [done| |].
  - unfold degree. by rewrite Hrv.
  - symmetry. apply num_interactions_count. lia.
Qed.

(** X18.  In a valid state a variable has fewer neighbors than the model
    has variables, and the model has at most [n * (n - 1) / 2]
    interactions. *)
Theorem degree_bound (s : bqm) :
  valid s →
  (∀ v d, degree s v = Some d → d < num_variables s) ∧
  num_interactions s * 2 ≤ num_variables s * (num_variables s - 1).
Proof.
  intros [Hs Hn Hsym]. unfold num_variables.
  assert (∀ v r, s !! v = Some r → length r.1 < length s) as Hrow.
  { intros v r Hr.
    assert (NoDup (v :: r.1.*1)) as Hnd.
    { constructor; [|by apply nb_sorted_NoDup, (Hs v)].
      intros ([w c] & -> & Hin)%list_elem_of_fmap.
      eapply Hn. by exists r. }
    assert (v :: r.1.*1 ⊆+ seq 0 (length s)) as Hsub.
    { apply NoDup_submseteq; [done|]. intros w Hw. apply elem_of_seq.
      apply elem_of_cons in Hw as [->|Hw]; [apply lookup_lt_Some in Hr; lia|].
      apply list_elem_of_fmap in Hw as ([w' c] & -> & Hin). simpl.
      assert (stored s w' v c) as Hst by (apply Hsym; by exists r).
      apply stored_lt in Hst. lia. }
    apply submseteq_length in Hsub.
    rewrite length_seq in Hsub. simpl in Hsub.
    rewrite length_fmap in Hsub. lia. }
  split.
  - intros v d Hd. unfold degree in Hd.
    destruct (s !! v) as [r|] eqn:Hr; [|done]. injection Hd as <-.
    by eapply Hrow.
  - assert (∀ (t : bqm) m, Forall (λ r, length r.1 ≤ m) t →
              count_entries t 0 ≤ length t * m) as Hsum.
    { intros t m. induction 1 as [|r t Hr Ht IH]; [done|].
      rewrite count_entries_cons. simpl. lia. }
    specialize (Hsum s (length s - 1)).
    assert (count_entries s 0 ≤ length s * (length s - 1)) as Hle.
    { apply Hsum. apply Forall_lookup. intros v r Hr.
      specialize (Hrow v r Hr). lia. }
    unfold num_interactions.
    pose proof (Nat.Div0.mul_div_le (count_entries s 0) 2). lia.
Qed.

(** X19.  Traversal and point query agree: in a valid state the entries
    of [neighborhood(u)] are exactly the pairs [(w, c)] for which
    [get_quadratic(u, w)] returns [(c, true)], every one of them names a
    variable of the model other than [u], and their number is
    [degree(u)]. *)
Theorem neighborhood_get_quadratic (s : bqm) u (nb : outvars) :
  valid s → neighborhood s u = Some nb →
  (∀ w c, (w, c) ∈ nb ↔ get_quadratic s u w = Some (c, true)) ∧
  (∀ w c, (w, c) ∈ nb → w < num_variables s ∧ w ≠ u) ∧
  degree s u = Some (length nb).
Proof.
  intros Hval Hnb. pose proof Hval as [Hs Hn Hsym].
  unfold neighborhood in Hnb. case_decide as Hu; [|done].
  destruct (s !! u) as [r|] eqn:Hr; [|done]. injection Hnb as <-.
  assert (∀ w c, (w, c) ∈ r.1 → w < length s ∧ w ≠ u) as Hin.
  { intros w c Hw. assert (stored s u w c) as Hst by (by exists r).
    split; [apply Hsym in Hst; by eapply stored_lt|].
    intros ->. by eapply Hn. }
  split_and!; [|done|unfold degree; by rewrite Hr].
  intros w c. split.
  - intros Hw. apply stored_get_quadratic; [done|]. by exists r.
  - intros Hget.
    assert (u < length s ∧ w < length s ∧ u ≠ w) as (_ & Hw & Huw).
    { unfold get_quadratic in Hget. by case_decide. }
    apply get_quadratic_stored in Hget; try done.
    by apply (stored_lookup s u w c r).
Qed.

Lemma dense_pair_reads (dense : list B) n u v (a a' : bqm) :
  dense_pair dense n u v a = Some a' →
  is_Some (dense !! (u * n + v)) ∧ is_Some (dense !! (v * n + u)).
Proof.
  unfold dense_pair. intros Hrun.
  destruct (dense !! (u * n + v)) as [qa|]; [|done].
  destruct (dense !! (v * n + u)) as [qb|]; [|done]. eauto.
Qed.

(** A dense construction that returns has read both entries of every
    pair. *)
Lemma dense_reads (dense : list B) n ign (s : bqm) u v :
  AdjVectorBQM_dense dense n ign = Some s → u < v < n →
  is_Some (dense !! (u * n + v)) ∧ is_Some (dense !! (v * n + u)).
Proof.
  unfold AdjVectorBQM_dense. intros Hrun Huv.
  destruct (if negb ign then _ else _) as [adj1|]; [|done]. simpl in Hrun.
  destruct (for_each_bodies _ _ _ _ Hrun u) as (a & a' & Hrow).
  { apply elem_of_seq. lia. }
  unfold dense_row in Hrow.
  destruct (for_each_bodies _ _ _ _ Hrow v) as (b & b' & Hpair).
  { apply elem_of_seq. lia. }
  by eapply dense_pair_reads.
Qed.

(** X20.  The dense constructor on any array, symmetric or not: whenever
    it returns, the state is valid and has [n] variables; the linear
    biases are the diagonal, or all zero under [ignore_diagonal]; and for
    [i < j] the bias of the pair is the entry above the diagonal plus the
    entry below it, stored for both directions when it is not zero and
    for neither when it is. *)
Theorem dense_constructor_general (dense : list B) n ignore_diagonal
    (s : bqm) :
  AdjVectorBQM_dense dense n ignore_diagonal = Some s →
  valid s ∧
  num_variables s = n ∧
  (∀ i, i < n →
     get_linear s i =
       if ignore_diagonal then Some bzero else dense !! (i * (n + 1))) ∧
  (∀ i j, i < j < n →
     ∃ a b,
       dense !! (i * n + j) = Some a ∧ dense !! (j * n + i) = Some b ∧
       get_quadratic s i j =
         (if bne (badd a b) bzero then Some (badd a b, true)
          else Some (bzero, false)) ∧
       get_quadratic s j i = get_quadratic s i j).
Proof.
  intros Hs.
  destruct (dense_spec _ _ _ _ Hs) as (lin & (Hl & Hlin & _) & _ & Hdiag).
  split_and!; [by eapply dense_valid|done| |].
  - intros i Hi. by rewrite get_linear_fmap, Hlin, Hdiag.
  - intros i j Hij.
    destruct (dense_reads _ _ _ _ i j Hs Hij) as [[a Ha] [b Hb]].
    exists a, b.
    destruct (dense_get_quadratic dense n ignore_diagonal s i j a b)
      as [H1 H2]; try done.
    split_and!; try done. by rewrite H1, H2.
Qed.

(** X21.  The dense constructor reads inside the first [n * n] entries of
    the array: it returns on every array that long, and with the diagonal
    in use it returns on no shorter one (unless [n] is zero). *)
Theorem dense_constructor_bounds (dense : list B) n :
  (∀ ignore_diagonal,
     n * n ≤ length dense →
     is_Some (AdjVectorBQM_dense dense n ignore_diagonal)) ∧
  (is_Some (AdjVectorBQM_dense dense n false) →
   n = 0 ∨ n * n ≤ length dense).
Proof.
  split; [intros ign; apply dense_total|].
  intros [s Hs]. destruct n as [|n]; [by left|]. right.
  unfold AdjVectorBQM_dense in Hs. simpl negb in Hs. cbv iota in Hs.
  destruct (for_each (seq 0 (S n)) (dense_diagonal dense (S n)) _)
    as [adj1|] eqn:Hdiag; [|done].
  destruct (for_each_bodies _ _ _ _ Hdiag n) as (a & a' & Hb).
  { apply elem_of_seq. lia. }
  unfold dense_diagonal in Hb.
  destruct (dense !! (n * (S n + 1))) as [d|] eqn:Hd; [|done].
  apply lookup_lt_Some in Hd. lia.
Qed.

(** X22.  A variable that was added and connected can be popped again
    without trace: [add_variable()], then [set_quadratic] from the new
    variable to an old one, then [pop_variable()] gives back the valid
    state the three calls started from. *)
Theorem add_connect_pop_restores (s : bqm) w b :
  valid s → w < num_variables s →
  ∃ s2,
    set_quadratic (add_variable s).1 (add_variable s).2 w b
      = Some (s2, true) ∧
    pop_variable s2 = Some (s, num_variables s).
Proof.
  intros Hval Hw. unfold num_variables in *. pose proof Hval as [Hs Hn Hsym].
  pose proof (add_variable_valid s Hval) as Hval1.
  rewrite add_variable_eq in *. simpl in *.
  set (n := length s) in *. set (s1 := s ++ [([], bzero)]) in *.
  assert (length s1 = n + 1) as Hlen1.
  { unfold s1. rewrite length_app. simpl. lia. }
  destruct (set_quadratic_spec s1 n w b Hval1)
    as (s2 & Hset & Hlen2 & Hs2 & Hlin2 & Hst2 & _); try lia.
  pose proof (set_quadratic_valid _ _ _ _ _ _ Hval1 Hset) as Hval2.
  exists s2. split; [done|].
  destruct (pop_variable_spec s2 Hval2)
    as (s3 & rv & Hpop & _ & Hlen3 & Hs3 & Hlin3 & Hst3 & _); [lia|].
  rewrite Hpop. replace (length s2 - 1) with n in * by lia.
  do 2 f_equal. apply state_ext; [done|done|lia| |].
  - intros x. destruct (decide (x < n)) as [Hx|Hx].
    + rewrite Hlin3, Hlin2 by done. unfold get_linear, s1.
      by rewrite lookup_app_l.
    + unfold get_linear. by rewrite !lookup_ge_None_2 by lia.
  - intros x y c. rewrite Hst3, Hst2. unfold s1.
    rewrite stored_snoc_empty. unfold same_edge. split.
    + intros (Hx & Hy & [[Hse _]|[_ H]]); [lia|done].
    + intros H.
      assert (x < n) by (by eapply stored_lt).
      assert (y < n) by (apply Hsym in H; by eapply stored_lt).
      split_and!; [lia|lia|]. right. split; [lia|done].
Qed.





End AdjVectorBQM.

(* ================================================================= *)
(** ** The model at integer biases

    [AdjVectorBQM<V, B>] with an integer [B]: the scenario of the
    specification, and the theorems above at a concrete model. *)

(** [operator!=] on integers. *)
Local Abbreviation zne := (λ a b : Z, negb (a =? b)%Z).

(** Three variables, linear bias [15] on variable 0, the edges [{0, 1}]
    with bias [20] and [{1, 2}] with bias [-10]. *)
Local Abbreviation bqm3 :=
  ([([(1, 20%Z)], 15%Z);
    ([(0, 20%Z); (2, (-10)%Z)], 0%Z);
    ([(1, (-10)%Z)], 0%Z)] : list (list (nat * Z) * Z)).

(** A [3 * 3] array whose dense construction is [bqm3]. *)
Local Abbreviation dense3 :=
  ([15; 10; 0;
    10; 0; -5;
    0; -5; 0]%Z : list Z).

(** The scenario of the specification, run on the embedding: three
    [add_variable], one [set_linear], two [set_quadratic]. *)
Example scenario_build :
  let s0 := AdjVectorBQM_default in
  let s1 := (add_variable 0%Z s0).1 in
  let s2 := (add_variable 0%Z s1).1 in
  let s3 := (add_variable 0%Z s2).1 in
  (s4 ← set_linear s3 0 15%Z;
   s5 ← set_quadratic s4 0 1 20%Z;
   s6 ← set_quadratic s5.1 1 2 (-10)%Z;
   Some s6.1) = Some bqm3.
Proof. vm_compute. reflexivity. Qed.

Example scenario_queries :
  degree bqm3 0 = Some 1 ∧ degree bqm3 1 = Some 2 ∧ degree bqm3 2 = Some 1 ∧
  num_interactions bqm3 = 2 ∧
  get_quadratic 0%Z bqm3 0 2 = Some (0%Z, false).
Proof. vm_compute. repeat split. Qed.

Example scenario_remove_pop :
  (r ← remove_interaction bqm3 0 1;
   p ← pop_variable r.1;
   Some (r.2, degree r.1 0, degree r.1 1, num_interactions r.1,
         degree p.1 1, num_variables p.1))
  = Some (true, Some 0, Some 1, 1, Some 0, 2).
Proof. vm_compute. reflexivity. Qed.

Example scenario_dense :
  AdjVectorBQM_dense 0%Z Z.add zne dense3 3 false = Some bqm3.
Proof. vm_compute. reflexivity. Qed.

Lemma bqm3_reachable : reachable 0%Z Z.add zne bqm3.
Proof. apply (reach_dense _ _ _ dense3 3 false). vm_compute. reflexivity. Qed.

Lemma bqm3_valid : valid bqm3.
Proof. exact (reachable_valid _ _ _ _ bqm3_reachable). Qed.

Lemma symmetry_invariant_witness :
  reachable 0%Z Z.add zne bqm3 ∧
  ∃ b found,
    get_quadratic 0%Z bqm3 0 1 = Some (b, found) ∧
    get_quadratic 0%Z bqm3 1 0 = Some (b, found).
Proof.
  split; [exact bqm3_reachable|].
  apply (symmetry_invariant 0%Z Z.add zne bqm3 0 1 bqm3_reachable);
    vm_compute; lia.
Defined.

Lemma neighborhood_well_formed_witness :
  neighborhood bqm3 1 = Some [(0, 20%Z); (2, (-10)%Z)] ∧
  NoDup [(0, 20%Z); (2, (-10)%Z)].*1 ∧ 1 ∉ [(0, 20%Z); (2, (-10)%Z)].*1.
Proof.
  split; [reflexivity|].
  apply (neighborhood_well_formed 0%Z Z.add zne bqm3 1 _ bqm3_reachable).
  reflexivity.
Defined.

Lemma set_quadratic_postcondition_witness :
  valid bqm3 ∧
  ∃ s', set_quadratic bqm3 0 2 7%Z = Some (s', true) ∧
        get_quadratic 0%Z s' 0 2 = Some (7%Z, true) ∧
        get_quadratic 0%Z s' 2 0 = Some (7%Z, true).
Proof.
  split; [exact bqm3_valid|].
  destruct (set_quadratic_postcondition 0%Z bqm3 0 2 7%Z bqm3_valid)
    as (s' & H1 & H2 & H3 & _); [vm_compute; lia..|].
  exists s'. auto.
Defined.

Lemma dense_round_trip_witness :
  length dense3 = 3 * 3 ∧
  ∃ s, AdjVectorBQM_dense 0%Z Z.add zne dense3 3 false = Some s ∧
       num_variables s = 3.
Proof.
  split; [reflexivity|].
  destruct (dense_round_trip 0%Z Z.add zne dense3 3) as (s & H1 & H2 & _).
  - reflexivity.
  - intros [|[|[|i]]] [|[|[|j]]] Hi Hj; try lia; reflexivity.
  - exists s. auto.
Defined.

Lemma pop_variable_postcondition_witness :
  valid bqm3 ∧
  ∃ s', pop_variable bqm3 = Some (s', 2) ∧ num_variables s' = 2.
Proof.
  split; [exact bqm3_valid|].
  destruct (pop_variable_postcondition 0%Z bqm3 bqm3_valid) as [Hpop _].
  destruct Hpop as (s' & H1 & H2 & _); [vm_compute; lia|].
  exists s'. auto.
Defined.

Lemma remove_interaction_atomic_witness :
  valid bqm3 ∧
  ∃ s' r, remove_interaction bqm3 0 1 = Some (s', r) ∧
          (r = true ↔ ∃ c, get_quadratic 0%Z bqm3 0 1 = Some (c, true)).
Proof.
  split; [exact bqm3_valid|].
  destruct (remove_interaction_atomic 0%Z bqm3 0 1 bqm3_valid)
    as (s' & r & H1 & H2 & _); [vm_compute; lia..|].
  exists s', r. auto.
Defined.

Lemma get_quadratic_semantics_witness :
  valid bqm3 ∧
  ((∃ b, get_quadratic 0%Z bqm3 0 1 = Some (b, true)) ∨
   get_quadratic 0%Z bqm3 0 1 = Some (0%Z, false)).
Proof.
  split; [exact bqm3_valid|].
  destruct (get_quadratic_semantics 0%Z bqm3 0 1 bqm3_valid)
    as (_ & _ & H); [vm_compute; lia..|].
  exact H.
Defined.

Lemma degree_interaction_consistency_witness :
  reachable 0%Z Z.add zne bqm3 ∧ num_interactions bqm3 * 2 = total_degree bqm3.
Proof.
  split; [exact bqm3_reachable|].
  exact (degree_interaction_consistency 0%Z Z.add zne bqm3 bqm3_reachable).
Defined.

Lemma zero_bias_edge_stored_witness :
  valid bqm3 ∧ get_quadratic 0%Z bqm3 0 2 = Some (0%Z, false) ∧
  ∃ s', set_quadratic bqm3 0 2 0%Z = Some (s', true) ∧
        get_quadratic 0%Z s' 0 2 = Some (0%Z, true) ∧
        get_quadratic 0%Z s' 2 0 = Some (0%Z, true) ∧
        num_interactions s' = num_interactions bqm3 + 1.
Proof.
  split; [exact bqm3_valid|]. split; [reflexivity|].
  destruct (zero_bias_edge_stored 0%Z Z.add zne bqm3 0 2 bqm3_valid)
    as [H _]; [vm_compute; lia..|reflexivity|].
  exact H.
Defined.

Lemma lower_bound_sorted_witness :
  lower_bound [(0, 20%Z); (2, (-10)%Z)] 1 = 1.
Proof.
  destruct (lower_bound_sorted [(0, 20%Z); (2, (-10)%Z)] 1) as [H _].
  - repeat constructor.
  - rewrite H. reflexivity.
Defined.

Lemma valid_state_canonical_witness :
  valid bqm3 ∧ bqm3 = bqm3.
Proof.
  split; [exact bqm3_valid|].
  apply (valid_state_canonical 0%Z bqm3 bqm3 bqm3_valid bqm3_valid);
    reflexivity.
Defined.

Lemma copy_constructor_faithful_witness :
  ∃ s, AdjVectorBQM_copy 0%Z (as_source bqm3) = Some s ∧
       num_variables s = 3 ∧ get_linear s 0 = Some 15%Z.
Proof.
  destruct (copy_constructor_faithful 0%Z (as_source bqm3)) as [_ H].
  exists bqm3. split; [vm_compute; reflexivity|].
  destruct (H bqm3) as [H1 H2]; [vm_compute; reflexivity|].
  split; [exact H1|]. destruct (H2 0) as [H3 _]; [vm_compute; lia|].
  exact H3.
Defined.

Lemma set_linear_postcondition_witness :
  ∃ s', set_linear bqm3 1 7%Z = Some s' ∧ get_linear s' 1 = Some 7%Z.
Proof.
  destruct (set_linear_postcondition 0%Z bqm3 1 7%Z) as [H _].
  destruct H as (s' & H1 & H2 & _); [vm_compute; lia|].
  exists s'. auto.
Defined.

Lemma set_linear_compose_witness :
  (s1 ← set_linear bqm3 0 1%Z; set_linear s1 1 2%Z) =
  (s1 ← set_linear bqm3 1 2%Z; set_linear s1 0 1%Z).
Proof.
  destruct (set_linear_compose bqm3 0 1 1%Z 2%Z) as (_ & H & _).
  apply H. lia.
Defined.

Lemma set_quadratic_argument_order_witness :
  set_quadratic bqm3 0 2 7%Z = set_quadratic bqm3 2 0 7%Z.
Proof. exact (set_quadratic_argument_order bqm3 0 2 7%Z bqm3_valid). Defined.

Lemma set_then_remove_restores_witness :
  ∃ s1, set_quadratic bqm3 0 2 7%Z = Some (s1, true) ∧
        remove_interaction s1 0 2 = Some (bqm3, true).
Proof.
  apply (set_then_remove_restores 0%Z bqm3 0 2 7%Z bqm3_valid);
    [vm_compute; lia..|reflexivity].
Defined.

Lemma remove_then_set_restores_witness :
  ∃ s1, remove_interaction bqm3 0 1 = Some (s1, true) ∧
        set_quadratic s1 0 1 20%Z = Some (bqm3, true).
Proof.
  apply (remove_then_set_restores 0%Z bqm3 0 1 20%Z bqm3_valid);
    [vm_compute; lia..|reflexivity].
Defined.

Lemma set_quadratic_last_write_witness :
  ∃ s1 s2, set_quadratic bqm3 0 1 3%Z = Some (s1, true) ∧
           set_quadratic s1 0 1 4%Z = Some (s2, true) ∧
           set_quadratic bqm3 0 1 4%Z = Some (s2, true).
Proof.
  destruct (set_quadratic_last_write bqm3 0 1 3%Z 4%Z bqm3_valid)
    as (s1 & s2 & H1 & H2 & H3 & _); [vm_compute; lia..|].
  exists s1, s2. auto.
Defined.

Lemma remove_interaction_argument_order_witness :
  remove_interaction bqm3 0 1 = remove_interaction bqm3 1 0 ∧
  remove_interaction bqm3 1 1 = Some (bqm3, false).
Proof.
  destruct (remove_interaction_argument_order bqm3 0 1 bqm3_valid) as [H _].
  destruct (remove_interaction_argument_order bqm3 1 1 bqm3_valid) as [_ H'].
  split; [exact H|]. apply H'. vm_compute; lia.
Defined.

Lemma set_quadratic_commute_witness :
  ∃ s',
    (p ← set_quadratic bqm3 0 1 3%Z; set_quadratic p.1 0 2 4%Z)
      = Some (s', true) ∧
    (p ← set_quadratic bqm3 0 2 4%Z; set_quadratic p.1 0 1 3%Z)
      = Some (s', true).
Proof.
  apply (set_quadratic_commute bqm3 0 1 3%Z 0 2 4%Z bqm3_valid);
    vm_compute; lia.
Defined.

Lemma set_quadratic_degree_witness :
  ∃ s', set_quadratic bqm3 0 2 7%Z = Some (s', true) ∧
        degree s' 0 = Some 2 ∧ degree s' 1 = Some 2.
Proof.
  exists [([(1, 20%Z); (2, 7%Z)], 15%Z);
          ([(0, 20%Z); (2, (-10)%Z)], 0%Z);
          ([(0, 7%Z); (1, (-10)%Z)], 0%Z)].
  split; [reflexivity|]. split.
  - apply (set_quadratic_degree 0%Z bqm3 _ 0 2 7%Z true 0%Z false bqm3_valid
             eq_refl eq_refl 0 1 eq_refl).
  - apply (set_quadratic_degree 0%Z bqm3 _ 0 2 7%Z true 0%Z false bqm3_valid
             eq_refl eq_refl 1 2 eq_refl).
Defined.

Lemma remove_interaction_degree_witness :
  ∃ s', remove_interaction bqm3 0 1 = Some (s', true) ∧
        degree s' 1 = Some 1.
Proof.
  exists [([], 15%Z); ([(2, (-10)%Z)], 0%Z); ([(1, (-10)%Z)], 0%Z)].
  split; [reflexivity|].
  apply (remove_interaction_degree bqm3 _ 0 1 true bqm3_valid eq_refl
           1 2 eq_refl).
Defined.

Lemma pop_variable_interactions_witness :
  ∃ s' d, pop_variable bqm3 = Some (s', 2) ∧ degree bqm3 2 = Some d ∧
          num_interactions s' + d = 2.
Proof.
  apply (pop_variable_interactions bqm3 bqm3_valid). vm_compute; lia.
Defined.

Lemma degree_bound_witness :
  valid bqm3 ∧ num_interactions bqm3 * 2 ≤ 3 * (3 - 1).
Proof.
  split; [exact bqm3_valid|].
  destruct (degree_bound bqm3 bqm3_valid) as [_ H]. exact H.
Defined.

Lemma neighborhood_get_quadratic_witness :
  get_quadratic 0%Z bqm3 1 2 = Some ((-10)%Z, true).
Proof.
  destruct (neighborhood_get_quadratic 0%Z bqm3 1 _ bqm3_valid eq_refl)
    as (H & _).
  apply H. vm_compute. apply elem_of_cons. right. apply elem_of_cons. by left.
Defined.

Lemma dense_constructor_general_witness :
  valid bqm3 ∧ num_variables bqm3 = 3.
Proof.
  destruct (dense_constructor_general 0%Z Z.add zne dense3 3 false bqm3)
    as (H1 & H2 & _); [vm_compute; reflexivity|].
  split; [exact H1|exact H2].
Defined.

Lemma dense_constructor_bounds_witness :
  is_Some (AdjVectorBQM_dense 0%Z Z.add zne dense3 3 true).
Proof.
  destruct (dense_constructor_bounds 0%Z Z.add zne dense3 3) as [H _].
  apply H. vm_compute. lia.
Defined.

Lemma add_connect_pop_restores_witness :
  ∃ s2,
    set_quadratic (add_variable 0%Z bqm3).1 (add_variable 0%Z bqm3).2 0 5%Z
      = Some (s2, true) ∧
    pop_variable s2 = Some (bqm3, 3).
Proof.
  apply (add_connect_pop_restores 0%Z bqm3 0 5%Z bqm3_valid).
  vm_compute; lia.
Defined.

